(** * The crawler of script.py: breadth-first traversal of the follower graph

    A shallow embedding of [process_network] and [main] of script.py, of the
    three write transactions [store_user], [store_group] and
    [create_relationship], and the properties of the traversal: depth and
    node budget, deduplication, breadth-first order, tolerance of failed
    requests, and what a repeated crawl does to the stored graph.

    Conventions.
    - Python integers are [Z]; a dict key that may be missing is an [option].
    - A request to the remote API ([vk_api_call]) is a function of its
      arguments: [None] is the [None] the Python returns on an HTTP or API
      error, the same request gets the same answer during a run. The error
      line that [vk_api_call] logs belongs to the event of the request.
    - The traversal never reads the database, it only sends write
      transactions. Its effects are recorded, in program order, as a list of
      events (requests, write transactions, log lines); the stored graph is
      the result of executing the write transactions of that list
      ([replay]). *)

From Stdlib Require Import ZArith List Lia Sorted.
From stdpp Require Import gmap strings list sets sorting.

Local Open Scope Z_scope.
#[local] Set Warnings "-clear-no-such-hyp".

(** ** Records returned by the API *)

(** A user record of [users.get]. [u_city] is the nested dict [city] and its
    key [title]. *)
Record user_data := UserData {
  u_id : Z;
  u_first_name : option string;
  u_last_name : option string;
  u_sex : option Z;
  u_screen_name : option string;
  u_home_town : option string;
  u_city : option (option string)
}.

(** A group record of [groups.getById]. *)
Record group_data := GroupData {
  g_id : Z;
  g_name : option string;
  g_screen_name : option string
}.

(** An item of [users.getSubscriptions] with [extended=1]. *)
Record subscription_item := SubscriptionItem {
  s_id : Z;
  s_type : option string
}.

(** The dict answered by [users.getSubscriptions]; [sub_items] is its key
    ['items']. *)
Record subscriptions_data := SubscriptionsData {
  sub_items : option (list subscription_item)
}.

(** [fetch_user_info] is called with the string of the command line in
    [main] and with a numeric id in [process_network]. *)
Inductive user_ref :=
  | UserId (i : Z)
  | UserName (s : string).

(** The five request functions of the script. [fetch_followers] answers the
    list under the key ['items'] of the response dict. *)
Record api := Api {
  fetch_user_info : user_ref → option (list user_data);
  fetch_followers : Z → option (list Z);
  fetch_followers_details : list Z → option (list user_data);
  fetch_subscriptions : Z → option subscriptions_data;
  fetch_group_details : list Z → option (list group_data)
}.

(** ** The graph database *)

Inductive label := User | Group.
Inductive relationship_type := FOLLOWS | SUBSCRIBED_TO.

Global Instance label_eq_dec : EqDecision label.
Proof. solve_decision. Defined.
Global Instance label_countable : Countable label.
Proof.
  refine (inj_countable' (λ l, match l with User => true | Group => false end)
                         (λ b : bool, if b then User else Group) _).
  by intros [].
Defined.
Global Instance relationship_type_eq_dec : EqDecision relationship_type.
Proof. solve_decision. Defined.
Global Instance relationship_type_countable : Countable relationship_type.
Proof.
  refine (inj_countable' (λ l, match l with FOLLOWS => true | SUBSCRIBED_TO => false end)
                         (λ b : bool, if b then FOLLOWS else SUBSCRIBED_TO) _).
  by intros [].
Defined.

(** Properties set on a [User] node; [sex] is [None] for the default ['']. *)
Record user_node := UserNode {
  screen_name : string;
  name : string;
  sex : option Z;
  home_town : string
}.

Record group_node := GroupNode {
  group_name : string;
  group_screen_name : string
}.

(** A node is identified by its label and its [id] property. *)
Definition node : Type := label * Z.
Definition relationship : Type := node * relationship_type * node.

(** The stored graph: the [User] nodes and the [Group] nodes by [id], and the
    directed relationships. *)
Record graph := Graph {
  users : gmap Z user_node;
  groups : gmap Z group_node;
  rels : gset relationship
}.

Definition empty_graph : graph := Graph ∅ ∅ ∅.

(** Python's [x or y] on strings. *)
Definition str_or (x y : string) : string :=
  if decide (x = "") then y else x.

(** [MERGE (u:User {id: $id}) SET ...] *)
Definition store_user (user_data : user_data) (g : graph) : graph :=
  let city := match u_city user_data with
              | Some c => default "" c
              | None => ""
              end in
  let hometown := str_or (default "" (u_home_town user_data)) city in
  {| users := <[ u_id user_data :=
                 {| screen_name := default "" (u_screen_name user_data);
                    name := default "" (u_first_name user_data) +:+ " "
                            +:+ default "" (u_last_name user_data);
                    sex := u_sex user_data;
                    home_town := hometown |} ]> (users g);
     groups := groups g;
     rels := rels g |}.

(** [MERGE (g:Group {id: $id}) SET ...] *)
Definition store_group (group_data : group_data) (g : graph) : graph :=
  {| users := users g;
     groups := <[ g_id group_data :=
                  {| group_name := default "" (g_name group_data);
                     group_screen_name := default "" (g_screen_name group_data) |} ]>
               (groups g);
     rels := rels g |}.

(** The nodes matched by the pattern [({id: $i})], which has no label. *)
Definition nodes_with_id (g : graph) (i : Z) : list node :=
  (if decide (is_Some (users g !! i)) then [(User, i)] else [])
  ++ (if decide (is_Some (groups g !! i)) then [(Group, i)] else []).

(** [MATCH (a {id: $from_id}) MATCH (b {id: $to_id}) MERGE (a)-[:T]->(b)] *)
Definition create_relationship (from_id to_id : Z)
    (relationship_type : relationship_type) (g : graph) : graph :=
  {| users := users g;
     groups := groups g;
     rels := rels g ∪
             list_to_set (a ← nodes_with_id g from_id;
                          b ← nodes_with_id g to_id;
                          [(a, relationship_type, b)]) |}.

(** ** Events of a run *)

Inductive call :=
  | FetchUserInfo (user_id : user_ref)
  | FetchFollowers (user_id : Z)
  | FetchFollowersDetails (follower_ids : list Z)
  | FetchSubscriptions (user_id : Z)
  | FetchGroupDetails (group_ids : list Z).

(** [session.write_transaction(f, ...)] *)
Inductive write :=
  | StoreUser (user_data : user_data)
  | StoreGroup (group_data : group_data)
  | CreateRelationship (from_id to_id : Z) (relationship_type : relationship_type).

Inductive read :=
  | GetTotalUsers
  | GetTotalGroups
  | GetTopUsersByFollowers (limit : Z)
  | GetTopGroups (limit : Z)
  | GetMutualFollowers.

(** The lines written to the log, and the usage line printed by [main]. *)
Inductive message :=
  | RelationshipCreated (relationship_type : relationship_type) (from_id to_id : Z)
  | LimitReached
  | UserFetchFailed (uid : Z)
  | UserAdded (id level : Z)
  | FollowerAdded (fid uid level : Z)
  | SubscriptionAdded (gid uid : Z)
  | LevelDone (level uid : Z)
  | ProcessingDone
  | TokenMissing
  | UserInfoReceived (user_info : option (list user_data))
  | FirstUserFailed
  | Usage.

Inductive event :=
  | Call (c : call)
  | Tx (w : write)
  | Query (r : read)
  | Log (m : message).

Definition apply_write (w : write) (g : graph) : graph :=
  match w with
  | StoreUser user_data => store_user user_data g
  | StoreGroup group_data => store_group group_data g
  | CreateRelationship from_id to_id ty => create_relationship from_id to_id ty g
  end.

(** The write transactions of a list of events, in order. *)
Definition writes (tr : list event) : list write :=
  omap (λ e, match e with Tx w => Some w | _ => None end) tr.

(** The graph after the write transactions [ws] ran on [g]. *)
Definition run_writes (ws : list write) (g : graph) : graph :=
  foldl (λ g w, apply_write w g) g ws.

Definition replay (tr : list event) (g : graph) : graph :=
  run_writes (writes tr) g.

(** The requests of a list of events. *)
Definition calls (tr : list event) : list call :=
  omap (λ e, match e with Call c => Some c | _ => None end) tr.

(** The nodes whose expansion completed, with their levels, in order: the
    line logged at the end of the loop body. *)
Definition expanded (tr : list event) : list (Z * Z) :=
  omap (λ e, match e with Log (LevelDone level uid) => Some (uid, level) | _ => None end) tr.

(** ** The traversal *)

(** The state of the loop of [process_network]: its three local variables,
    whether the loop was left, and the events so far. *)
Record state := State {
  queue : list (Z * Z);
  processed : gset Z;
  node_count : Z;
  finished : bool;
  trace : list event
}.

(** [create_relationship], with its log line. *)
Definition write_relationship (from_id to_id : Z) (ty : relationship_type) : list event :=
  [Tx (CreateRelationship from_id to_id ty); Log (RelationshipCreated ty from_id to_id)].

(** [for follower in followers_info: ...] *)
Fixpoint followers_loop (processed : gset Z) (uid level : Z)
    (followers_info : list user_data) (queue : list (Z * Z))
    : list event * list (Z * Z) :=
  match followers_info with
  | [] => ([], queue)
  | follower :: rest =>
      let fid := u_id follower in
      if decide (fid ∈ processed) then
        followers_loop processed uid level rest queue
      else
        let '(evs, queue') :=
          followers_loop processed uid level rest (queue ++ [(fid, level + 1)]) in
        (Tx (StoreUser follower) :: write_relationship fid uid FOLLOWS
           ++ Log (FollowerAdded fid uid (level + 1)) :: evs, queue')
  end.

(** [for group in groups_info: ...] *)
Fixpoint groups_loop (processed : gset Z) (uid : Z)
    (groups_info : list group_data) : list event :=
  match groups_info with
  | [] => []
  | group :: rest =>
      let gid := g_id group in
      if decide (gid ∈ processed) then
        groups_loop processed uid rest
      else
        Tx (StoreGroup group) :: write_relationship uid gid SUBSCRIBED_TO
          ++ Log (SubscriptionAdded gid uid) :: groups_loop processed uid rest
  end.

Section Traversal.

Variable vk : api.
Variable max_depth : Z.
Variable max_nodes : Z.

(** Lines 166-177. *)
Definition expand_followers (processed : gset Z) (uid level : Z)
    (queue : list (Z * Z)) : list event * list (Z * Z) :=
  match fetch_followers vk uid with
  | Some follower_ids =>
      match fetch_followers_details vk follower_ids with
      | Some ((_ :: _) as followers_info) =>
          let '(evs, queue') := followers_loop processed uid level followers_info queue in
          (Call (FetchFollowers uid) :: Call (FetchFollowersDetails follower_ids) :: evs,
           queue')
      | _ => ([Call (FetchFollowers uid); Call (FetchFollowersDetails follower_ids)], queue)
      end
  | None => ([Call (FetchFollowers uid)], queue)
  end.

(** [[item['id'] for item in subscriptions['items'] if item.get('type') == 'page']] *)
Definition page_ids (items : list subscription_item) : list Z :=
  s_id <$> filter (λ item, s_type item = Some "page") items.

(** Lines 179-190. *)
Definition expand_subscriptions (processed : gset Z) (uid : Z) : list event :=
  match fetch_subscriptions vk uid with
  | Some {| sub_items := Some items |} =>
      match page_ids items with
      | [] => [Call (FetchSubscriptions uid)]
      | group_ids =>
          match fetch_group_details vk group_ids with
          | Some ((_ :: _) as groups_info) =>
              Call (FetchSubscriptions uid) :: Call (FetchGroupDetails group_ids)
                :: groups_loop processed uid groups_info
          | _ => [Call (FetchSubscriptions uid); Call (FetchGroupDetails group_ids)]
          end
      end
  | _ => [Call (FetchSubscriptions uid)]
  end.

(** One test of [while queue] and, when the queue is not empty, one run of
    the loop body. *)
Definition iteration (st : state) : state :=
  match queue st with
  | [] =>
      {| queue := []; processed := processed st; node_count := node_count st;
         finished := true; trace := trace st ++ [Log ProcessingDone] |}
  | (uid, level) :: queue =>
      if decide (uid ∈ processed st ∨ level > max_depth) then
        {| queue := queue; processed := processed st; node_count := node_count st;
           finished := false; trace := trace st |}
      else
        let processed := {[uid]} ∪ processed st in
        let node_count := node_count st + 1 in
        if decide (node_count > max_nodes) then
          {| queue := queue; processed := processed; node_count := node_count;
             finished := true;
             trace := trace st ++ [Log LimitReached; Log ProcessingDone] |}
        else
          match fetch_user_info vk (UserId uid) with
          | Some (user_details :: _) =>
              let '(follower_events, queue') :=
                expand_followers processed uid level queue in
              {| queue := queue'; processed := processed; node_count := node_count;
                 finished := false;
                 trace := trace st
                   ++ Call (FetchUserInfo (UserId uid))
                   :: Tx (StoreUser user_details)
                   :: Log (UserAdded (u_id user_details) level)
                   :: follower_events
                   ++ expand_subscriptions processed uid
                   ++ [Log (LevelDone level uid)] |}
          | _ =>
              {| queue := queue; processed := processed; node_count := node_count;
                 finished := false;
                 trace := trace st
                   ++ [Call (FetchUserInfo (UserId uid)); Log (UserFetchFailed uid)] |}
          end
  end.

(** The loop, with a bound on the number of iterations: [None] when the
    bound is reached before the loop is left. *)
Fixpoint loop (fuel : nat) (st : state) : option state :=
  if finished st then Some st
  else match fuel with
       | O => None
       | S fuel => loop fuel (iteration st)
       end.

Definition initial (user_id current_level : Z) : state :=
  {| queue := [(user_id, current_level)]; processed := ∅; node_count := 0;
     finished := false; trace := [] |}.

Definition process_network (fuel : nat) (user_id current_level : Z) : option state :=
  loop fuel (initial user_id current_level).

(** The states of the loop that a call of [process_network] goes through. *)
Inductive reachable (user_id current_level : Z) : state → Prop :=
  | reachable_initial : reachable user_id current_level (initial user_id current_level)
  | reachable_iteration st :
      reachable user_id current_level st →
      finished st = false →
      reachable user_id current_level (iteration st).

End Traversal.

Arguments reachable vk max_depth max_nodes user_id current_level st : assert.

(** The loop run for at most [n] iterations, as a total function. *)
Fixpoint run (vk : api) (max_depth max_nodes : Z) (n : nat) (st : state) : state :=
  match n with
  | O => st
  | S n =>
      if finished st then st
      else run vk max_depth max_nodes n (iteration vk max_depth max_nodes st)
  end.

(** ** The entry point *)

(** The environment variables read when the module is loaded. *)
Record environment := Environment {
  VK_ACCESS_TOKEN : option string;
  NEO4J_USER : option string;
  NEO4J_PASSWORD : option string
}.

(** The parsed command line. *)
Record arguments := Args {
  args_query : option string;
  args_limit : Z;
  args_user_id : option string;
  args_max_depth : Z;
  args_max_nodes : Z
}.

(** Python's truth value of a string that may be [None]. *)
Definition truthy (s : option string) : bool :=
  match s with
  | None => false
  | Some s => if decide (s = "") then false else true
  end.

(** The branch [if args.query:] of [main]: one read transaction; the lines
    printed from its result are left out. *)
Definition run_query (query : string) (limit : Z) : list event :=
  if decide (query = "total_users") then [Query GetTotalUsers]
  else if decide (query = "total_groups") then [Query GetTotalGroups]
  else if decide (query = "top_users") then [Query (GetTopUsersByFollowers limit)]
  else if decide (query = "top_groups") then [Query (GetTopGroups limit)]
  else if decide (query = "mutual_followers") then [Query GetMutualFollowers]
  else [Log Usage].

(** [main]: the exit status of the process and its events. The result is
    [None] when [fuel] iterations do not finish the traversal. *)
Definition main (fuel : nat) (env : environment) (args : arguments) (vk : api)
    : option (Z * list event) :=
  if negb (truthy (VK_ACCESS_TOKEN env)) then
    Some (1, [Log TokenMissing])
  else if truthy (args_query args) then
    Some (0, run_query (default "" (args_query args)) (args_limit args))
  else
    let user_id := str_or (default "" (args_user_id args)) "185283514" in
    let user_info := fetch_user_info vk (UserName user_id) in
    let start := [Call (FetchUserInfo (UserName user_id)); Log (UserInfoReceived user_info)] in
    match user_info with
    | Some (user_data :: _) =>
        st ← process_network vk (args_max_depth args) (args_max_nodes args)
               fuel (u_id user_data) 0;
        Some (0, start ++ trace st)
    | _ => Some (0, start ++ [Log FirstUserFailed])
    end.

(** ** Sample API answers *)

Module Sample.

Definition user (i : Z) : user_data :=
  UserData i (Some "A") (Some "B") (Some 1) (Some "ab") None None.

Definition group (i : Z) : group_data := GroupData i (Some "G") (Some "g").

(** The records of the users among [ids]: the ids below [first_group]. *)
Definition users_of (first_group : Z) (ids : list Z) : option (list user_data) :=
  match filter (λ i, i < first_group) ids with
  | [] => None
  | ids => Some (user <$> ids)
  end.

(** The records of the groups among [ids]: the ids from [first_group] on. *)
Definition groups_of (first_group : Z) (ids : list Z) : option (list group_data) :=
  Some (group <$> filter (λ i, first_group ≤ i) ids).

(** The scenario of the specification: user 1 has the followers 2 and 3,
    user 3 subscribes to the page 100. *)
Definition scenario : api :=
  {| fetch_user_info := λ r,
       match r with
       | UserId i => if decide (i ∈ [1; 2; 3]) then Some [user i] else None
       | UserName s => if decide (s = "1") then Some [user 1] else None
       end;
     fetch_followers := λ i, if decide (i = 1) then Some [2; 3] else Some [];
     fetch_followers_details := users_of 100;
     fetch_subscriptions := λ i,
       if decide (i = 3) then
         Some (SubscriptionsData (Some [SubscriptionItem 100 (Some "page");
                                        SubscriptionItem 7 (Some "profile")]))
       else Some (SubscriptionsData (Some []));
     fetch_group_details := groups_of 100 |}.

(** An API where user [i] has the followers [followers i] and subscribes to
    the pages [pages i], the detail record of the users [known] is
    answered, and the ids from [first_group] on are those of groups. *)
Definition make_from (first_group : Z) (known : list Z) (followers pages : Z → list Z)
    : api :=
  {| fetch_user_info := λ r,
       match r with
       | UserId i => if decide (i ∈ known) then Some [user i] else None
       | UserName s => if decide (s = "1") then Some [user 1] else None
       end;
     fetch_followers := λ i, Some (followers i);
     fetch_followers_details := users_of first_group;
     fetch_subscriptions := λ i,
       Some (SubscriptionsData
               (Some ((λ p, SubscriptionItem p (Some "page")) <$> pages i)));
     fetch_group_details := groups_of first_group |}.

Definition make := make_from 100.

(** No request is answered. *)
Definition unreachable : api :=
  Api (λ _, None) (λ _, None) (λ _, None) (λ _, None) (λ _, None).

(** User 1 has the follower 2 and subscribes to the page whose id is 2:
    the ids of users and of groups overlap. *)
Definition collision : api :=
  {| fetch_user_info := λ r,
       match r with
       | UserId i => if decide (i ∈ [1; 2]) then Some [user i] else None
       | UserName s => if decide (s = "1") then Some [user 1] else None
       end;
     fetch_followers := λ i, if decide (i = 1) then Some [2] else Some [];
     fetch_followers_details := λ ids,
       match ids with [] => None | _ => Some (user <$> ids) end;
     fetch_subscriptions := λ i,
       if decide (i = 1) then
         Some (SubscriptionsData (Some [SubscriptionItem 2 (Some "page")]))
       else Some (SubscriptionsData (Some []));
     fetch_group_details := λ ids, Some (group <$> ids) |}.

(** User 1 has the follower 2, and both subscribe to the page 100. *)
Definition shared_group : api :=
  make [1; 2] (λ i, if decide (i = 1) then [2] else []) (λ _, [100]).

(** User 1 has the followers 2 and 3, user 2 the follower 4, user 3 the
    follower 5. *)
Definition tree : api :=
  make [1; 2; 3; 4; 5]
       (λ i, if decide (i = 1) then [2; 3]
             else if decide (i = 2) then [4]
             else if decide (i = 3) then [5] else [])
       (λ _, []).

(** User 1 has the follower 2; the record answered for id 1 carries the id
    7, the record answered for id 2 carries the id 1. *)
Definition renamed : api :=
  {| fetch_user_info := λ r,
       match r with
       | UserId i => if decide (i = 1) then Some [user 7]
                     else if decide (i = 2) then Some [user 1] else None
       | UserName s => None
       end;
     fetch_followers := λ i, if decide (i = 1) then Some [2] else None;
     fetch_followers_details := users_of 100;
     fetch_subscriptions := λ _, None;
     fetch_group_details := groups_of 100 |}.

(** User 1 has the follower 2, whose detail record is not answered. *)
Definition lost_follower : api :=
  make [1] (λ i, if decide (i = 1) then [2] else []) (λ _, []).

End Sample.

(** ** Notions used to state the properties *)

(** Python's [not x] for an answer that is [None] or a list. *)
Definition absent {A} (r : option (list A)) : Prop := r = None ∨ r = Some [].

(** The events of one follower that is not in the set. *)
Definition follower_events (uid level : Z) (follower : user_data) : list event :=
  [Tx (StoreUser follower);
   Tx (CreateRelationship (u_id follower) uid FOLLOWS);
   Log (RelationshipCreated FOLLOWS (u_id follower) uid);
   Log (FollowerAdded (u_id follower) uid (level + 1))].

(** The events of one group that is not in the set. *)
Definition group_events (uid : Z) (group : group_data) : list event :=
  [Tx (StoreGroup group);
   Tx (CreateRelationship uid (g_id group) SUBSCRIBED_TO);
   Log (RelationshipCreated SUBSCRIBED_TO uid (g_id group));
   Log (SubscriptionAdded (g_id group) uid)].

(** The followers handled when [uid] is expanded with the set [processed]. *)
Definition new_followers (vk : api) (processed : gset Z) (uid : Z) : list user_data :=
  match fetch_followers vk uid with
  | Some follower_ids =>
      match fetch_followers_details vk follower_ids with
      | Some followers_info => filter (λ f, u_id f ∉ processed) followers_info
      | None => []
      end
  | None => []
  end.

(** The requests of the follower part. *)
Definition follower_calls (vk : api) (uid : Z) : list event :=
  match fetch_followers vk uid with
  | Some follower_ids => [Call (FetchFollowers uid); Call (FetchFollowersDetails follower_ids)]
  | None => [Call (FetchFollowers uid)]
  end.

(** The groups handled when [uid] is expanded with the set [processed]. *)
Definition new_groups (vk : api) (processed : gset Z) (uid : Z) : list group_data :=
  match fetch_subscriptions vk uid with
  | Some {| sub_items := Some items |} =>
      match page_ids items with
      | [] => []
      | group_ids =>
          match fetch_group_details vk group_ids with
          | Some groups_info => filter (λ g, g_id g ∉ processed) groups_info
          | None => []
          end
      end
  | _ => []
  end.

(** The requests of the subscription part. *)
Definition subscription_calls (vk : api) (uid : Z) : list event :=
  match fetch_subscriptions vk uid with
  | Some {| sub_items := Some items |} =>
      match page_ids items with
      | [] => [Call (FetchSubscriptions uid)]
      | group_ids => [Call (FetchSubscriptions uid); Call (FetchGroupDetails group_ids)]
      end
  | _ => [Call (FetchSubscriptions uid)]
  end.

(** The events of the expansion of [uid], popped at [level] with the detail
    record [user_details], when [processed] already holds [uid]. *)
Definition expansion_events (vk : api) (processed : gset Z) (uid level : Z)
    (user_details : user_data) : list event :=
  [Call (FetchUserInfo (UserId uid)); Tx (StoreUser user_details);
   Log (UserAdded (u_id user_details) level)]
  ++ (follower_calls vk uid ++ (new_followers vk processed uid ≫= follower_events uid level))
  ++ (subscription_calls vk uid ++ (new_groups vk processed uid ≫= group_events uid))
  ++ [Log (LevelDone level uid)].

(** Every run of the loop body is one of the five. *)
Variant iteration_case (vk : api) (max_depth max_nodes : Z) (st : state) : Prop :=
  | case_empty :
      queue st = [] → iteration_case vk max_depth max_nodes st
  | case_skip uid level q :
      queue st = (uid, level) :: q →
      uid ∈ processed st ∨ level > max_depth → iteration_case vk max_depth max_nodes st
  | case_limit uid level q :
      queue st = (uid, level) :: q →
      uid ∉ processed st → level ≤ max_depth →
      node_count st + 1 > max_nodes → iteration_case vk max_depth max_nodes st
  | case_failed uid level q :
      queue st = (uid, level) :: q →
      uid ∉ processed st → level ≤ max_depth →
      node_count st + 1 ≤ max_nodes →
      absent (fetch_user_info vk (UserId uid)) → iteration_case vk max_depth max_nodes st
  | case_expand uid level q user_details rest :
      queue st = (uid, level) :: q →
      uid ∉ processed st → level ≤ max_depth →
      node_count st + 1 ≤ max_nodes →
      fetch_user_info vk (UserId uid) = Some (user_details :: rest) →
      iteration_case vk max_depth max_nodes st.

(** The requests for the detail record of a numeric id. *)
Definition detail_requests (tr : list event) : list Z :=
  omap (λ e, match e with Call (FetchUserInfo (UserId u)) => Some u | _ => None end) tr.

(** The nodes of a graph. *)
Definition has_user (g : graph) (i : Z) : Prop := is_Some (users g !! i).
Definition has_group (g : graph) (i : Z) : Prop := is_Some (groups g !! i).
Definition has_id (g : graph) (i : Z) : Prop := has_user g i ∨ has_group g i.

(** The relationships merged by [create_relationship]. *)
Definition matched (g : graph) (from_id to_id : Z) (ty : relationship_type)
    : gset relationship :=
  list_to_set (a ← nodes_with_id g from_id; b ← nodes_with_id g to_id; [(a, ty, b)]).

(** Every [create_relationship] of [ws], run from [g], finds a node for each
    of its two ids. *)
Fixpoint linked (g : graph) (ws : list write) : Prop :=
  match ws with
  | [] => True
  | w :: ws =>
      match w with
      | CreateRelationship x y _ => has_id g x ∧ has_id g y
      | _ => True
      end ∧ linked (apply_write w g) ws
  end.

(** No id is shared by a user and a group: [U] holds of the ids of the users
    and of no id of a group. *)
Definition separated (U : Z → Prop) (g : graph) : Prop :=
  (∀ i, has_user g i → U i) ∧ (∀ i, has_group g i → ¬ U i).

Definition writes_separated (U : Z → Prop) (ws : list write) : Prop :=
  (∀ r, StoreUser r ∈ ws → U (u_id r)) ∧ (∀ grp, StoreGroup grp ∈ ws → ¬ U (g_id grp)).

(** The writes of one follower and of one group. *)
Definition follower_writes (uid : Z) (follower : user_data) : list write :=
  [StoreUser follower; CreateRelationship (u_id follower) uid FOLLOWS].

Definition group_writes (uid : Z) (group : group_data) : list write :=
  [StoreGroup group; CreateRelationship uid (g_id group) SUBSCRIBED_TO].

(** The graph after [process_network] ran from the seed [user_id] on the
    stored graph [g]. *)
Definition crawl (vk : api) (max_depth max_nodes : Z) (fuel : nat) (user_id : Z)
    (g : graph) : option graph :=
  st ← process_network vk max_depth max_nodes fuel user_id 0;
  Some (replay (trace st) g).

(** ** The remaining functions of the script *)

(** The JSON body of an answer of the API: its key ['error'], with the
    message under ['error_msg'], and its key ['response']. *)
Record response_body (A : Type) := ResponseBody {
  body_error : option string;
  body_response : option A
}.

Arguments ResponseBody {A} body_error body_response.
Arguments body_error {A} r.
Arguments body_response {A} r.

(** The answer of [requests.get]. *)
Record http_response (A : Type) := HttpResponse {
  status_code : Z;
  text : string;
  json : response_body A
}.

Arguments HttpResponse {A} status_code text json.
Arguments status_code {A} h.
Arguments text {A} h.
Arguments json {A} h.

(** The two error lines of [vk_api_call]. *)
Inductive transport_message :=
  | ApiError (error_msg : string)
  | HttpError (status_code : Z) (text : string).

(** [vk_api_call], from the answer of [requests.get] on: the value returned
    and the lines logged. *)
Definition vk_api_call {A} (response : http_response A)
    : option A * list transport_message :=
  if decide (status_code response = 200) then
    let result := json response in
    match body_error result with
    | Some error_msg => (None, [ApiError error_msg])
    | None => (body_response result, [])
    end
  else (None, [HttpError (status_code response) (text response)]).

(** The properties that [store_user] sets on the node. *)
Definition stored_user (user_data : user_data) : user_node :=
  let city := match u_city user_data with
              | Some c => default "" c
              | None => ""
              end in
  {| screen_name := default "" (u_screen_name user_data);
     name := default "" (u_first_name user_data) +:+ " "
             +:+ default "" (u_last_name user_data);
     sex := u_sex user_data;
     home_town := str_or (default "" (u_home_town user_data)) city |}.

(** The properties that [store_group] sets on the node. *)
Definition stored_group (group_data : group_data) : group_node :=
  {| group_name := default "" (g_name group_data);
     group_screen_name := default "" (g_screen_name group_data) |}.

(** [MATCH (u:User) RETURN count(u) AS total_users] *)
Definition get_total_users (g : graph) : Z := Z.of_nat (size (users g)).

(** [MATCH (g:Group) RETURN count(g) AS total_groups] *)
Definition get_total_groups (g : graph) : Z := Z.of_nat (size (groups g)).

(** The row of [get_mutual_followers] for the relationship [e], when [e]
    matches [(u:User)-[:FOLLOWS]->(v:User)] and [(v)-[:FOLLOWS]->(u)] holds. *)
Definition mutual_row (g : graph) (e : relationship) : option (string * string) :=
  match e with
  | ((User, u), FOLLOWS, (User, v)) =>
      if decide (((User, v), FOLLOWS, (User, u)) ∈ rels g) then
        user1 ← users g !! u; user2 ← users g !! v; Some (name user1, name user2)
      else None
  | _ => None
  end.

(** [get_mutual_followers]: one row for each match of the pattern. The
    query gives no order to its rows; the rows are listed here in the order
    of the relationships of the set. *)
Definition get_mutual_followers (g : graph) : list (string * string) :=
  omap (mutual_row g) (elements (rels g)).

(** * Properties *)

(** ** The event lists *)

Lemma writes_app tr1 tr2 : writes (tr1 ++ tr2) = writes tr1 ++ writes tr2.
Proof. apply omap_app. Qed.

Lemma calls_app tr1 tr2 : calls (tr1 ++ tr2) = calls tr1 ++ calls tr2.
Proof. apply omap_app. Qed.

Lemma expanded_app tr1 tr2 : expanded (tr1 ++ tr2) = expanded tr1 ++ expanded tr2.
Proof. apply omap_app. Qed.

Lemma elem_of_writes w tr : w ∈ writes tr ↔ Tx w ∈ tr.
Proof.
  unfold writes. rewrite list_elem_of_omap. split.
  - intros (e & He & Hw). destruct e; simplify_eq. done.
  - intros He. by exists (Tx w).
Qed.

Lemma elem_of_calls c tr : c ∈ calls tr ↔ Call c ∈ tr.
Proof.
  unfold calls. rewrite list_elem_of_omap. split.
  - intros (e & He & Hc). destruct e; simplify_eq. done.
  - intros He. by exists (Call c).
Qed.

Lemma run_writes_app ws1 ws2 g :
  run_writes (ws1 ++ ws2) g = run_writes ws2 (run_writes ws1 g).
Proof. apply foldl_app. Qed.

Lemma replay_app tr1 tr2 g : replay (tr1 ++ tr2) g = replay tr2 (replay tr1 g).
Proof. unfold replay. by rewrite writes_app, run_writes_app. Qed.

(** ** The two inner loops, as a filter *)

Lemma followers_loop_filter processed uid level followers_info queue :
  followers_loop processed uid level followers_info queue =
  (filter (λ f, u_id f ∉ processed) followers_info ≫= follower_events uid level,
   queue ++ ((λ f, (u_id f, level + 1)) <$> filter (λ f, u_id f ∉ processed) followers_info)).
Proof.
  revert queue. induction followers_info as [|f rest IH]; intros queue; simpl.
  - by rewrite app_nil_r.
  - destruct (decide (u_id f ∈ processed)) as [Hin|Hin].
    + rewrite IH. by rewrite filter_cons_False by (intros ?; done).
    + rewrite IH. rewrite filter_cons_True by done. simpl.
      by rewrite <- app_assoc.
Qed.

Lemma groups_loop_filter processed uid groups_info :
  groups_loop processed uid groups_info =
  filter (λ g, g_id g ∉ processed) groups_info ≫= group_events uid.
Proof.
  induction groups_info as [|g rest IH]; simpl; [done|].
  destruct (decide (g_id g ∈ processed)) as [Hin|Hin].
  - rewrite IH. by rewrite filter_cons_False by (intros ?; done).
  - rewrite IH. by rewrite filter_cons_True by done.
Qed.

Lemma calls_follower_events uid level fs : calls (fs ≫= follower_events uid level) = [].
Proof. induction fs as [|f fs IH]; [done|]. simpl. exact IH. Qed.

Lemma calls_group_events uid gs : calls (gs ≫= group_events uid) = [].
Proof. induction gs as [|g gs IH]; [done|]. simpl. exact IH. Qed.

Lemma expanded_follower_events uid level fs :
  expanded (fs ≫= follower_events uid level) = [].
Proof. induction fs as [|f fs IH]; [done|]. simpl. exact IH. Qed.

Lemma expanded_group_events uid gs : expanded (gs ≫= group_events uid) = [].
Proof. induction gs as [|g gs IH]; [done|]. simpl. exact IH. Qed.

Ltac unfold_iteration := unfold iteration.

Section Traversal_facts.

Variable vk : api.
Variable max_depth : Z.
Variable max_nodes : Z.

Local Abbreviation iteration := (iteration vk max_depth max_nodes).
Local Abbreviation loop := (loop vk max_depth max_nodes).
Local Abbreviation run := (run vk max_depth max_nodes).
Local Abbreviation reachable := (reachable vk max_depth max_nodes).
Local Abbreviation expand_followers := (expand_followers vk).
Local Abbreviation expand_subscriptions := (expand_subscriptions vk).
Local Abbreviation new_followers := (new_followers vk).
Local Abbreviation follower_calls := (follower_calls vk).
Local Abbreviation new_groups := (new_groups vk).
Local Abbreviation subscription_calls := (subscription_calls vk).
Local Abbreviation expansion_events := (expansion_events vk).
Local Abbreviation iteration_case := (iteration_case vk max_depth max_nodes).

Lemma expand_followers_eq processed uid level queue :
  expand_followers processed uid level queue =
  (follower_calls uid ++ (new_followers processed uid ≫= follower_events uid level),
   queue ++ ((λ f, (u_id f, level + 1)) <$> new_followers processed uid)).
Proof.
  unfold expand_followers, follower_calls, new_followers.
  destruct (fetch_followers vk uid) as [ids|]; simpl; [|by rewrite app_nil_r].
  destruct (fetch_followers_details vk ids) as [[|f info]|];
    rewrite ?followers_loop_filter; simpl; by rewrite ?app_nil_r.
Qed.

Lemma expand_subscriptions_eq processed uid :
  expand_subscriptions processed uid =
  subscription_calls uid ++ (new_groups processed uid ≫= group_events uid).
Proof.
  unfold expand_subscriptions, subscription_calls, new_groups.
  destruct (fetch_subscriptions vk uid) as [[[items|]]|]; simpl; try done.
  destruct (page_ids items) as [|i ids]; simpl; [done|].
  destruct (fetch_group_details vk (i :: ids)) as [[|g info]|];
    by rewrite ?groups_loop_filter.
Qed.

(** ** The five ways through the loop body *)

Lemma iteration_empty st :
  queue st = [] →
  iteration st =
  State [] (processed st) (node_count st) true (trace st ++ [Log ProcessingDone]).
Proof. intros Hq. unfold_iteration. by rewrite Hq. Qed.

Lemma iteration_skip st uid level q :
  queue st = (uid, level) :: q →
  uid ∈ processed st ∨ level > max_depth →
  iteration st = State q (processed st) (node_count st) false (trace st).
Proof.
  intros Hq Hskip. unfold_iteration. rewrite Hq.
  by rewrite decide_True by done.
Qed.

Lemma iteration_limit st uid level q :
  queue st = (uid, level) :: q →
  uid ∉ processed st → level ≤ max_depth →
  node_count st + 1 > max_nodes →
  iteration st =
  State q ({[uid]} ∪ processed st) (node_count st + 1) true
        (trace st ++ [Log LimitReached; Log ProcessingDone]).
Proof.
  intros Hq Hnew Hlevel Hlimit. unfold_iteration. rewrite Hq.
  rewrite decide_False by (intros [?|?]; [done|lia]).
  by rewrite decide_True by done.
Qed.

Lemma iteration_failed st uid level q :
  queue st = (uid, level) :: q →
  uid ∉ processed st → level ≤ max_depth →
  node_count st + 1 ≤ max_nodes →
  absent (fetch_user_info vk (UserId uid)) →
  iteration st =
  State q ({[uid]} ∪ processed st) (node_count st + 1) false
        (trace st ++ [Call (FetchUserInfo (UserId uid)); Log (UserFetchFailed uid)]).
Proof.
  intros Hq Hnew Hlevel Hlimit Habsent. unfold_iteration. rewrite Hq.
  rewrite decide_False by (intros [?|?]; [done|lia]).
  rewrite decide_False by lia.
  by destruct Habsent as [-> | ->].
Qed.

Lemma iteration_expand st uid level q user_details rest :
  queue st = (uid, level) :: q →
  uid ∉ processed st → level ≤ max_depth →
  node_count st + 1 ≤ max_nodes →
  fetch_user_info vk (UserId uid) = Some (user_details :: rest) →
  iteration st =
  State (q ++ ((λ f, (u_id f, level + 1)) <$> new_followers ({[uid]} ∪ processed st) uid))
        ({[uid]} ∪ processed st) (node_count st + 1) false
        (trace st ++ expansion_events ({[uid]} ∪ processed st) uid level user_details).
Proof.
  intros Hq Hnew Hlevel Hlimit Hinfo. unfold_iteration. rewrite Hq.
  rewrite decide_False by (intros [?|?]; [done|lia]).
  rewrite decide_False by lia.
  rewrite Hinfo, expand_followers_eq, expand_subscriptions_eq. done.
Qed.

Lemma iteration_cases st : iteration_case st.
Proof.
  destruct (queue st) as [|[uid level] q] eqn:Hq; [by apply case_empty|].
  destruct (decide (uid ∈ processed st ∨ level > max_depth)) as [Hskip|Hskip].
  { by eapply case_skip. }
  assert ((uid ∉ processed st) ∧ (level ≤ max_depth)) as [Hnew Hlevel].
  { split; [tauto|]. destruct (decide (level ≤ max_depth)); [done|].
    exfalso. apply Hskip. right. lia. }
  destruct (decide (node_count st + 1 > max_nodes)) as [Hlimit|Hlimit].
  { by eapply case_limit. }
  destruct (fetch_user_info vk (UserId uid)) as [[|r rest]|] eqn:Hinfo.
  - apply (case_failed vk max_depth max_nodes st uid level q); [done | done | done | lia | by right].
  - apply (case_expand vk max_depth max_nodes st uid level q r rest); [done | done | done | lia | done].
  - apply (case_failed vk max_depth max_nodes st uid level q); [done | done | done | lia | by left].
Qed.

(** ** Termination *)

Lemma loop_finished fuel st : finished st = true → loop fuel st = Some st.
Proof. intros H. destruct fuel; simpl; by rewrite H. Qed.

Lemma loop_unfinished fuel st :
  finished st = false → loop (S fuel) st = loop fuel (iteration st).
Proof. intros H. simpl. by rewrite H. Qed.

(** The node counter grows at every item that is not skipped and stops the
    loop beyond [max_nodes]; a skipped item shortens the queue. *)
Lemma loop_terminates st : ∃ fuel st', loop fuel st = Some st'.
Proof.
  remember (Z.to_nat (max_nodes + 1 - node_count st)) as budget eqn:Hb.
  revert st Hb. induction (lt_wf budget) as [budget _ IHb]. intros st Hb.
  remember (length (queue st)) as len eqn:Hl.
  revert st Hb Hl. induction (lt_wf len) as [len _ IHl]. intros st Hb Hl.
  destruct (finished st) eqn:Hfin.
  { exists O, st. by apply loop_finished. }
  assert (∀ st', (∃ fuel st'', loop fuel st' = Some st'') →
                 iteration st = st' → ∃ fuel st'', loop fuel st = Some st'') as Hstep.
  { intros st' (fuel & st'' & Hloop) Hit. exists (S fuel), st''.
    by rewrite loop_unfinished, Hit. }
  destruct (iteration_cases st) as
    [Hq | uid level q Hq Hskip | uid level q Hq Hnew Hlevel Hlimit
     | uid level q Hq Hnew Hlevel Hlimit Habs
     | uid level q r rest Hq Hnew Hlevel Hlimit Hinfo].
  - eapply Hstep; [|by apply iteration_empty]. exists O. eexists. by apply loop_finished.
  - eapply Hstep; [|by eapply iteration_skip].
    eapply (IHl (length q)); [|done|done]. rewrite Hl, Hq. simpl. lia.
  - eapply Hstep; [|by eapply iteration_limit]. exists O. eexists. by apply loop_finished.
  - eapply Hstep; [|by eapply iteration_failed].
    eapply (IHb (Z.to_nat (max_nodes + 1 - (node_count st + 1)))); [|done].
    rewrite Hb. lia.
  - eapply Hstep; [|by eapply iteration_expand].
    eapply (IHb (Z.to_nat (max_nodes + 1 - (node_count st + 1)))); [|done].
    rewrite Hb. lia.
Qed.

Lemma loop_some_finished fuel st st' : loop fuel st = Some st' → finished st' = true.
Proof.
  revert st. induction fuel as [|fuel IH]; intros st; simpl;
    destruct (finished st) eqn:Hfin; intros H; simplify_eq; eauto.
Qed.

Lemma loop_some_run fuel st st' : loop fuel st = Some st' → st' = run fuel st.
Proof.
  revert st. induction fuel as [|fuel IH]; intros st; simpl;
    destruct (finished st) eqn:Hfin; intros H; simplify_eq; eauto.
Qed.


(** ** The states of a run *)

Section Reachable.

Variable user_id current_level : Z.

Local Abbreviation reach := (reachable user_id current_level).

Lemma reachable_run n st : reach st → reach (run n st).
Proof.
  revert st. induction n as [|n IH]; intros st Hst; simpl; [done|].
  destruct (finished st) eqn:Hfin; [done|].
  apply IH. by apply reachable_iteration.
Qed.

Lemma reachable_loop fuel st st' : reach st → loop fuel st = Some st' → reach st'.
Proof. intros Hst Hloop. rewrite (loop_some_run _ _ _ Hloop). by apply reachable_run. Qed.

Lemma reachable_process_network fuel st :
  process_network vk max_depth max_nodes fuel user_id current_level = Some st → reach st.
Proof. apply reachable_loop. constructor. Qed.

End Reachable.

(** ** Invariants of the loop *)

Lemma detail_requests_app tr1 tr2 :
  detail_requests (tr1 ++ tr2) = detail_requests tr1 ++ detail_requests tr2.
Proof. apply omap_app. Qed.

Lemma detail_requests_follower_events uid level fs :
  detail_requests (fs ≫= follower_events uid level) = [].
Proof. induction fs as [|f fs IH]; [done|]. simpl. exact IH. Qed.

Lemma detail_requests_group_events uid gs :
  detail_requests (gs ≫= group_events uid) = [].
Proof. induction gs as [|g gs IH]; [done|]. simpl. exact IH. Qed.

Lemma expanded_expansion_events processed uid level r :
  expanded (expansion_events processed uid level r) = [(uid, level)].
Proof.
  unfold expansion_events. rewrite !expanded_app.
  rewrite expanded_follower_events, expanded_group_events.
  unfold follower_calls, subscription_calls.
  destruct (fetch_followers vk uid); destruct (fetch_subscriptions vk uid) as [[[items|]]|];
    try destruct (page_ids items); done.
Qed.

Lemma detail_requests_expansion_events processed uid level r :
  detail_requests (expansion_events processed uid level r) = [uid].
Proof.
  unfold expansion_events. rewrite !detail_requests_app.
  rewrite detail_requests_follower_events, detail_requests_group_events.
  unfold follower_calls, subscription_calls.
  destruct (fetch_followers vk uid); destruct (fetch_subscriptions vk uid) as [[[items|]]|];
    try destruct (page_ids items); done.
Qed.

Lemma calls_expansion_events processed uid level r c :
  c ∈ calls (expansion_events processed uid level r) →
  c = FetchUserInfo (UserId uid) ∨ c = FetchFollowers uid ∨ c = FetchSubscriptions uid
  ∨ (∃ ids, c = FetchFollowersDetails ids) ∨ (∃ ids, c = FetchGroupDetails ids).
Proof.
  unfold expansion_events. rewrite !calls_app.
  rewrite calls_follower_events, calls_group_events.
  unfold follower_calls, subscription_calls.
  destruct (fetch_followers vk uid); destruct (fetch_subscriptions vk uid) as [[[items|]]|];
    try destruct (page_ids items); simpl; set_solver.
Qed.

Section Invariants.

Variable user_id current_level : Z.

Local Abbreviation reach := (reachable user_id current_level).

(** Case analysis on the loop body, with the new state rewritten. *)
Ltac by_cases st :=
  destruct (iteration_cases st) as
    [Hq | uid level q Hq Hskip | uid level q Hq Hnew Hlevel Hlimit
     | uid level q Hq Hnew Hlevel Hlimit Habs
     | uid level q r rest Hq Hnew Hlevel Hlimit Hinfo];
  [ rewrite (iteration_empty st Hq)
  | rewrite (iteration_skip st uid level q Hq Hskip)
  | rewrite (iteration_limit st uid level q Hq Hnew Hlevel Hlimit)
  | rewrite (iteration_failed st uid level q Hq Hnew Hlevel Hlimit Habs)
  | rewrite (iteration_expand st uid level q r rest Hq Hnew Hlevel Hlimit Hinfo) ];
  simpl.

Lemma expanded_within_depth st :
  reach st → ∀ uid level, (uid, level) ∈ expanded (trace st) → level ≤ max_depth.
Proof.
  induction 1 as [|st Hst IH Hfin]; [by intros ?? ?%elem_of_nil|].
  by_cases st; rewrite ?expanded_app, ?expanded_expansion_events; simpl;
    rewrite ?app_nil_r; try done.
  intros u l [Hin | Hin%list_elem_of_singleton]%elem_of_app; [by eapply IH|].
  by simplify_eq.
Qed.

Lemma expanded_within_budget st :
  reach st →
  Z.of_nat (length (expanded (trace st))) ≤ node_count st
  ∧ Z.of_nat (length (expanded (trace st))) ≤ Z.max 0 max_nodes.
Proof.
  induction 1 as [|st Hst IH Hfin]; [simpl; lia|].
  by_cases st; rewrite ?expanded_app, ?expanded_expansion_events; simpl;
    rewrite ?app_nil_r, ?length_app; simpl; lia.
Qed.

Lemma requests_within_budget st :
  reach st →
  Z.of_nat (length (detail_requests (trace st))) ≤ node_count st
  ∧ Z.of_nat (length (detail_requests (trace st))) ≤ Z.max 0 max_nodes.
Proof.
  induction 1 as [|st Hst IH Hfin]; [simpl; lia|].
  by_cases st; rewrite ?detail_requests_app, ?detail_requests_expansion_events; simpl;
    rewrite ?app_nil_r, ?length_app; simpl; lia.
Qed.

Lemma expanded_once st :
  reach st →
  NoDup (expanded (trace st)).*1 ∧ ∀ u, u ∈ (expanded (trace st)).*1 → u ∈ processed st.
Proof.
  induction 1 as [|st Hst [IHn IHp] Hfin].
  { split; [constructor | by intros ? ?%elem_of_nil]. }
  by_cases st; rewrite ?expanded_app, ?expanded_expansion_events; simpl;
    rewrite ?app_nil_r, ?fmap_app; simpl; try (split; [done | set_solver]).
  split.
  - apply NoDup_app. split; [done|]. split; [|apply NoDup_singleton].
    intros u Hu ->%list_elem_of_singleton. by apply Hnew, IHp.
  - intros u [Hu | ->%list_elem_of_singleton]%elem_of_app; set_solver.
Qed.

Lemma requested_once st :
  reach st →
  NoDup (detail_requests (trace st))
  ∧ ∀ u, u ∈ detail_requests (trace st) → u ∈ processed st.
Proof.
  induction 1 as [|st Hst [IHn IHp] Hfin].
  { split; [constructor | by intros ? ?%elem_of_nil]. }
  by_cases st; rewrite ?detail_requests_app, ?detail_requests_expansion_events; simpl;
    rewrite ?app_nil_r; try (split; [done | set_solver]).
  - split.
    + apply NoDup_app. split; [done|]. split; [|apply NoDup_singleton].
      intros u Hu ->%list_elem_of_singleton. by apply Hnew, IHp.
    + intros u [Hu | ->%list_elem_of_singleton]%elem_of_app; set_solver.
  - split.
    + apply NoDup_app. split; [done|]. split; [|apply NoDup_singleton].
      intros u Hu ->%list_elem_of_singleton. by apply Hnew, IHp.
    + intros u [Hu | ->%list_elem_of_singleton]%elem_of_app; set_solver.
Qed.

(** The followers and the subscriptions of [uid] are requested only after
    its detail record was answered. *)
Lemma requests_after_detail st :
  reach st → ∀ uid,
  FetchFollowers uid ∈ calls (trace st) ∨ FetchSubscriptions uid ∈ calls (trace st) →
  ∃ r rest, fetch_user_info vk (UserId uid) = Some (r :: rest).
Proof.
  induction 1 as [|st Hst IH Hfin]; [intros ? [?%elem_of_nil|?%elem_of_nil]; done|].
  by_cases st; rewrite ?calls_app; simpl; rewrite ?app_nil_r; try done.
  - intros u [H|H]; apply IH; set_solver.
  - intros u Hu.
    assert (FetchFollowers u ∈ calls (trace st) ∨ FetchSubscriptions u ∈ calls (trace st)
            ∨ (∃ c, c ∈ calls (expansion_events ({[uid]} ∪ processed st) uid level r)
                    ∧ (c = FetchFollowers u ∨ c = FetchSubscriptions u)))
      as [H|[H|(c & Hc & Hcu)]] by set_solver.
    + apply IH. by left.
    + apply IH. by right.
    + apply calls_expansion_events in Hc.
      assert (u = uid) as -> by (destruct Hcu; naive_solver). eauto.
Qed.

(** Breadth-first order: the levels of the expanded nodes followed by the
    levels of the waiting items never decrease, and two waiting items are at
    most one level apart. *)
Lemma constant_sorted (c : Z) (l : list Z) :
  (∀ y, y ∈ l → y = c) → StronglySorted Z.le l.
Proof.
  induction l as [|x l IH]; intros Hl; constructor.
  - apply IH. intros y Hy. apply Hl. by right.
  - apply Forall_forall. intros y Hy.
    rewrite (Hl x) by left. rewrite (Hl y) by (by right). lia.
Qed.

Lemma new_levels processed uid level y :
  y ∈ ((λ f : user_data, (u_id f, level + 1)) <$> new_followers processed uid).*2 →
  y = level + 1.
Proof.
  rewrite <- list_fmap_compose. intros (f & -> & _)%list_elem_of_fmap. done.
Qed.

Lemma fifo_order st :
  reach st →
  StronglySorted Z.le ((expanded (trace st)).*2 ++ (queue st).*2)
  ∧ ∀ x y, x ∈ (queue st).*2 → y ∈ (queue st).*2 → y ≤ x + 1.
Proof.
  induction 1 as [|st Hst [IHs IHq] Hfin].
  { simpl. split; [repeat constructor|].
    intros x y ->%list_elem_of_singleton ->%list_elem_of_singleton. lia. }
  assert (∀ uid level q, queue st = (uid, level) :: q →
    StronglySorted Z.le ((expanded (trace st)).*2 ++ q.*2)
    ∧ ∀ x y, x ∈ q.*2 → y ∈ q.*2 → y ≤ x + 1) as Htail.
  { intros uid level q Hq. rewrite Hq in IHs, IHq. simpl in IHs, IHq. split.
    - apply StronglySorted_app in IHs as (Hc & HE & [HL Hq']%StronglySorted_cons).
      apply StronglySorted_app. split_and!; [|done|done].
      intros x1 x2 H1 H2. apply Hc; [done|]. by right.
    - intros x y Hx Hy. apply IHq; by right. }
  by_cases st; rewrite ?expanded_app, ?expanded_expansion_events; simpl;
    rewrite ?app_nil_r; eauto.
  - rewrite Hq in IHs. simpl in IHs. rewrite app_nil_r in IHs. split; [done|].
    by intros ?? ?%elem_of_nil.
  - rewrite Hq in IHs, IHq. simpl in IHs, IHq. rewrite !fmap_app. simpl.
    apply StronglySorted_app in IHs as (Hc & HE & [HL Hq']%StronglySorted_cons).
    rewrite Forall_forall in HL.
    set (N := ((λ f : user_data, (u_id f, level + 1))
                 <$> new_followers ({[uid]} ∪ processed st) uid).*2).
    assert (∀ y, y ∈ N → y = level + 1) as HN by apply new_levels.
    assert (∀ y, y ∈ q.*2 → level ≤ y ≤ level + 1) as HL'.
    { intros y Hy. split; [by apply HL|]. apply IHq; [by left | by right]. }
    assert (∀ x, x ∈ (expanded (trace st)).*2 → x ≤ level) as HE'.
    { intros x Hx. apply Hc; [done | by left]. }
    split.
    + apply StronglySorted_app. split_and!.
      * intros x1 x2 [H1 | ->%list_elem_of_singleton]%elem_of_app
          [H2 | H2]%elem_of_app.
        -- apply Hc; [done | by right].
        -- apply HE' in H1. apply HN in H2. lia.
        -- by apply HL.
        -- apply HN in H2. lia.
      * apply StronglySorted_app. split_and!; [|done|repeat constructor].
        intros x1 x2 H1 ->%list_elem_of_singleton. by apply HE'.
      * apply StronglySorted_app. split_and!; [|done|by apply (constant_sorted (level + 1))].
        intros x1 x2 H1 H2. apply HL' in H1. apply HN in H2. lia.
    + intros x y [Hx|Hx]%elem_of_app [Hy|Hy]%elem_of_app;
        try apply HL' in Hx; try apply HL' in Hy;
        try apply HN in Hx; try apply HN in Hy; lia.
Qed.

End Invariants.

End Traversal_facts.

(** ** The write transactions on the graph *)

Lemma graph_eq g g' :
  users g = users g' → groups g = groups g' → rels g = rels g' → g = g'.
Proof. destruct g, g'; simpl; by intros -> -> ->. Qed.

Lemma nodes_with_id_ext g g' i :
  (has_user g i ↔ has_user g' i) → (has_group g i ↔ has_group g' i) →
  nodes_with_id g i = nodes_with_id g' i.
Proof.
  unfold nodes_with_id, has_user, has_group. intros Hu Hg.
  repeat case_decide; tauto.
Qed.

Lemma matched_ext g g' x y ty :
  nodes_with_id g x = nodes_with_id g' x → nodes_with_id g y = nodes_with_id g' y →
  matched g x y ty = matched g' x y ty.
Proof. unfold matched. by intros -> ->. Qed.

Lemma store_user_twice r g : store_user r (store_user r g) = store_user r g.
Proof. apply graph_eq; simpl; [apply insert_insert_eq | done | done]. Qed.

Lemma store_group_twice grp g : store_group grp (store_group grp g) = store_group grp g.
Proof. apply graph_eq; simpl; [done | apply insert_insert_eq | done]. Qed.

Lemma create_relationship_twice x y ty g :
  create_relationship x y ty (create_relationship x y ty g) = create_relationship x y ty g.
Proof.
  apply graph_eq; simpl; [done | done |].
  change (rels g ∪ matched g x y ty ∪ matched g x y ty = rels g ∪ matched g x y ty).
  set_solver.
Qed.

Lemma apply_write_twice w g : apply_write w (apply_write w g) = apply_write w g.
Proof.
  destruct w; simpl;
    [apply store_user_twice | apply store_group_twice | apply create_relationship_twice].
Qed.

Lemma has_user_apply_write w g i : has_user g i → has_user (apply_write w g) i.
Proof.
  unfold has_user. destruct w as [r| |]; simpl; try done.
  intros H. destruct (decide (u_id r = i)) as [->|Hne].
  - rewrite lookup_insert_eq. eauto.
  - by rewrite lookup_insert_ne.
Qed.

Lemma has_group_apply_write w g i : has_group g i → has_group (apply_write w g) i.
Proof.
  unfold has_group. destruct w as [|grp|]; simpl; try done.
  intros H. destruct (decide (g_id grp = i)) as [->|Hne].
  - rewrite lookup_insert_eq. eauto.
  - by rewrite lookup_insert_ne.
Qed.

Lemma has_id_apply_write w g i : has_id g i → has_id (apply_write w g) i.
Proof.
  intros [H|H]; [left; by apply has_user_apply_write | right; by apply has_group_apply_write].
Qed.

Lemma rels_apply_write w g : rels g ⊆ rels (apply_write w g).
Proof. destruct w; simpl; set_solver. Qed.

Lemma has_user_run_writes ws g i : has_user g i → has_user (run_writes ws g) i.
Proof.
  revert g. induction ws as [|w ws IH]; intros g H; [done|].
  apply IH. by apply has_user_apply_write.
Qed.

Lemma has_group_run_writes ws g i : has_group g i → has_group (run_writes ws g) i.
Proof.
  revert g. induction ws as [|w ws IH]; intros g H; [done|].
  apply IH. by apply has_group_apply_write.
Qed.

Lemma rels_run_writes ws g : rels g ⊆ rels (run_writes ws g).
Proof.
  revert g. induction ws as [|w ws IH]; intros g; [done|].
  etrans; [apply (rels_apply_write w)|apply IH].
Qed.

Lemma users_run_writes_other ws g k :
  (∀ r, StoreUser r ∈ ws → u_id r ≠ k) →
  users (run_writes ws g) !! k = users g !! k.
Proof.
  revert g. induction ws as [|w ws IH]; intros g Hk; [done|].
  simpl. rewrite IH by (intros r Hr; apply Hk; by right).
  destruct w as [r| |]; simpl; try done.
  apply lookup_insert_ne, Hk. by left.
Qed.

Lemma groups_run_writes_other ws g k :
  (∀ grp, StoreGroup grp ∈ ws → g_id grp ≠ k) →
  groups (run_writes ws g) !! k = groups g !! k.
Proof.
  revert g. induction ws as [|w ws IH]; intros g Hk; [done|].
  simpl. rewrite IH by (intros r Hr; apply Hk; by right).
  destruct w as [|grp|]; simpl; try done.
  apply lookup_insert_ne, Hk. by left.
Qed.

Lemma linked_app g ws1 ws2 :
  linked g (ws1 ++ ws2) ↔ linked g ws1 ∧ linked (run_writes ws1 g) ws2.
Proof.
  revert g. induction ws1 as [|w ws1 IH]; intros g; simpl; [tauto|].
  rewrite IH. tauto.
Qed.

Section Separated.

Variable U : Z → Prop.

Local Abbreviation separated := (separated U).
Local Abbreviation writes_separated := (writes_separated U).

Lemma separated_run_writes ws g :
  separated g → writes_separated ws → separated (run_writes ws g).
Proof.
  revert g. induction ws as [|w ws IH]; intros g Hg [Hu Hgr]; [done|].
  simpl. apply IH.
  - destruct Hg as [Hg1 Hg2]. destruct w as [r|grp|]; simpl; [| |done].
    + split; [|done]. unfold has_user. simpl. intros i.
      destruct (decide (u_id r = i)) as [<-|Hne].
      * intros _. apply Hu. by left.
      * rewrite lookup_insert_ne by done. apply Hg1.
    + split; [done|]. unfold has_group. simpl. intros i.
      destruct (decide (g_id grp = i)) as [<-|Hne].
      * intros _. apply Hgr. by left.
      * rewrite lookup_insert_ne by done. apply Hg2.
  - split; intros x Hx; [apply Hu | apply Hgr]; by right.
Qed.

(** The second pass over the writes [ws]: [a] is the graph of the first
    pass before [ws], [b] the graph of the second pass before [ws]. *)
Lemma second_pass ws a b g1 :
  run_writes ws a = g1 → separated g1 → linked a ws →
  (∀ k, (∀ r, StoreUser r ∈ ws → u_id r ≠ k) → users a !! k = users b !! k) →
  (∀ k, (∀ grp, StoreGroup grp ∈ ws → g_id grp ≠ k) → groups a !! k = groups b !! k) →
  (∀ i, has_user b i ↔ has_user g1 i) →
  (∀ i, has_group b i ↔ has_group g1 i) →
  rels b = rels g1 →
  run_writes ws b = g1.
Proof.
  intros Hrun [Hsu Hsg]. revert a b Hrun.
  induction ws as [|w ws IH]; intros a b Hrun Hl Hu Hg Hbu Hbg Hr.
  { simpl in *. subst g1. symmetry. apply graph_eq; [| |done].
    - apply map_eq. intros k. apply Hu. by intros ? ?%elem_of_nil.
    - apply map_eq. intros k. apply Hg. by intros ? ?%elem_of_nil. }
  simpl in Hrun, Hl. destruct Hl as [Hw Hl]. simpl.
  apply (IH (apply_write w a)); [done | done | | | | |].
  - intros k Hk. destruct w as [r| |]; simpl;
      try (apply Hu; intros r' [?|?]%elem_of_cons; [done | by apply Hk]).
    destruct (decide (u_id r = k)) as [->|Hne].
    + by rewrite !lookup_insert_eq.
    + rewrite !lookup_insert_ne by done.
      apply Hu. intros r' [?|?]%elem_of_cons; [by simplify_eq | by apply Hk].
  - intros k Hk. destruct w as [|grp|]; simpl;
      try (apply Hg; intros r' [?|?]%elem_of_cons; [done | by apply Hk]).
    destruct (decide (g_id grp = k)) as [->|Hne].
    + by rewrite !lookup_insert_eq.
    + rewrite !lookup_insert_ne by done.
      apply Hg. intros r' [?|?]%elem_of_cons; [by simplify_eq | by apply Hk].
  - intros i. split.
    + destruct w as [r| |]; simpl; try apply Hbu.
      unfold has_user at 1. simpl. destruct (decide (u_id r = i)) as [<-|Hne].
      * intros _. rewrite <- Hrun. apply has_user_run_writes.
        unfold has_user. simpl. rewrite lookup_insert_eq. eauto.
      * rewrite lookup_insert_ne by done. apply Hbu.
    + intros H. by apply has_user_apply_write, Hbu.
  - intros i. split.
    + destruct w as [|grp|]; simpl; try apply Hbg.
      unfold has_group at 1. simpl. destruct (decide (g_id grp = i)) as [<-|Hne].
      * intros _. rewrite <- Hrun. apply has_group_run_writes.
        unfold has_group. simpl. rewrite lookup_insert_eq. eauto.
      * rewrite lookup_insert_ne by done. apply Hbg.
    + intros H. by apply has_group_apply_write, Hbg.
  - destruct w as [| |x y ty]; simpl; [done | done |].
    change (rels b ∪ matched b x y ty = rels g1).
    assert (∀ i, has_id a i → nodes_with_id a i = nodes_with_id g1 i) as Hsame.
    { intros i Hi. apply nodes_with_id_ext; split.
      - intros H. rewrite <- Hrun. by apply has_user_run_writes, has_user_apply_write.
      - intros H. destruct Hi as [Hi|Hi]; [done|]. exfalso.
        apply (Hsg i); [|by apply Hsu].
        rewrite <- Hrun. by apply has_group_run_writes, has_group_apply_write.
      - intros H. rewrite <- Hrun. by apply has_group_run_writes, has_group_apply_write.
      - intros H. destruct Hi as [Hi|Hi]; [|done]. exfalso.
        apply (Hsg i); [done|]. apply Hsu.
        rewrite <- Hrun. by apply has_user_run_writes, has_user_apply_write. }
    assert (matched b x y ty = matched a x y ty) as ->.
    { destruct Hw as [Hx Hy]. apply matched_ext.
      - rewrite (Hsame x Hx). by apply nodes_with_id_ext.
      - rewrite (Hsame y Hy). by apply nodes_with_id_ext. }
    assert (matched a x y ty ⊆ rels g1); [|set_solver].
    rewrite <- Hrun. etrans; [|apply rels_run_writes]. simpl.
    change (matched a x y ty ⊆ rels a ∪ matched a x y ty). set_solver.
Qed.

(** Running the writes a second time changes nothing, when no id is shared
    by a user and a group and every relationship finds its two nodes. *)
Lemma run_writes_twice ws g :
  separated g → writes_separated ws → linked g ws →
  run_writes ws (run_writes ws g) = run_writes ws g.
Proof.
  intros Hg Hws Hl.
  apply (second_pass ws g); try done.
  - by apply separated_run_writes.
  - intros k Hk. symmetry. by apply users_run_writes_other.
  - intros k Hk. symmetry. by apply groups_run_writes_other.
Qed.

End Separated.

(** ** The writes of an expansion *)

Lemma writes_follower_events uid level fs :
  writes (fs ≫= follower_events uid level) = fs ≫= follower_writes uid.
Proof.
  induction fs as [|f fs IH]; [done|].
  change (writes (follower_events uid level f ++ (fs ≫= follower_events uid level))
          = follower_writes uid f ++ (fs ≫= follower_writes uid)).
  by rewrite writes_app, IH.
Qed.

Lemma writes_group_events uid gs :
  writes (gs ≫= group_events uid) = gs ≫= group_writes uid.
Proof.
  induction gs as [|g gs IH]; [done|].
  change (writes (group_events uid g ++ (gs ≫= group_events uid))
          = group_writes uid g ++ (gs ≫= group_writes uid)).
  by rewrite writes_app, IH.
Qed.

Lemma writes_follower_calls vk uid : writes (follower_calls vk uid) = [].
Proof. unfold follower_calls. by destruct (fetch_followers vk uid). Qed.

Lemma writes_subscription_calls vk uid : writes (subscription_calls vk uid) = [].
Proof.
  unfold subscription_calls.
  destruct (fetch_subscriptions vk uid) as [[[items|]]|]; try done.
  by destruct (page_ids items).
Qed.

Lemma writes_expansion_events vk processed uid level r :
  writes (expansion_events vk processed uid level r) =
  StoreUser r :: (new_followers vk processed uid ≫= follower_writes uid)
              ++ (new_groups vk processed uid ≫= group_writes uid).
Proof.
  unfold expansion_events. rewrite !writes_app.
  rewrite writes_follower_calls, writes_subscription_calls.
  rewrite writes_follower_events, writes_group_events. simpl.
  by rewrite app_nil_r.
Qed.

Lemma has_id_run_writes ws g i : has_id g i → has_id (run_writes ws g) i.
Proof.
  intros [H|H]; [left; by apply has_user_run_writes | right; by apply has_group_run_writes].
Qed.

Lemma has_id_store_user r g : has_id (store_user r g) (u_id r).
Proof. left. unfold has_user. simpl. rewrite lookup_insert_eq. eauto. Qed.

Lemma has_id_store_group grp g : has_id (store_group grp g) (g_id grp).
Proof. right. unfold has_group. simpl. rewrite lookup_insert_eq. eauto. Qed.

Lemma linked_follower_writes uid fs g :
  has_id g uid → linked g (fs ≫= follower_writes uid).
Proof.
  revert g. induction fs as [|f fs IH]; intros g Hg; [done|].
  simpl. split; [done|]. split.
  - split; [apply has_id_store_user | by apply (has_id_apply_write (StoreUser f))].
  - apply IH.
    apply (has_id_apply_write (CreateRelationship (u_id f) uid FOLLOWS)).
    by apply (has_id_apply_write (StoreUser f)).
Qed.

Lemma linked_group_writes uid gs g :
  has_id g uid → linked g (gs ≫= group_writes uid).
Proof.
  revert g. induction gs as [|grp gs IH]; intros g Hg; [done|].
  simpl. split; [done|]. split.
  - split; [by apply (has_id_apply_write (StoreGroup grp)) | apply has_id_store_group].
  - apply IH.
    apply (has_id_apply_write (CreateRelationship uid (g_id grp) SUBSCRIBED_TO)).
    by apply (has_id_apply_write (StoreGroup grp)).
Qed.

(** ** A crawl and its repetition *)

Section Crawl_twice.

Variable vk : api.
Variable max_depth max_nodes : Z.
Variable user_id current_level : Z.

(** The ids of users, which no group has. *)
Variable U : Z → Prop.

Hypothesis detail_of_requested :
  ∀ u r rest, fetch_user_info vk (UserId u) = Some (r :: rest) → u_id r = u.
Hypothesis followers_are_users :
  ∀ ids info f, fetch_followers_details vk ids = Some info → f ∈ info → U (u_id f).
Hypothesis groups_are_not_users :
  ∀ ids info grp, fetch_group_details vk ids = Some info → grp ∈ info → ¬ U (g_id grp).
Hypothesis seed_is_user : U user_id.

Lemma new_followers_users processed uid f :
  f ∈ new_followers vk processed uid → U (u_id f).
Proof.
  unfold new_followers. destruct (fetch_followers vk uid) as [ids|]; [|by intros ?%elem_of_nil].
  destruct (fetch_followers_details vk ids) as [info|] eqn:Hinfo; [|by intros ?%elem_of_nil].
  intros [_ Hf]%list_elem_of_filter. by eapply followers_are_users.
Qed.

Lemma new_groups_not_users processed uid grp :
  grp ∈ new_groups vk processed uid → ¬ U (g_id grp).
Proof.
  unfold new_groups.
  destruct (fetch_subscriptions vk uid) as [[[items|]]|]; try by intros ?%elem_of_nil.
  destruct (page_ids items) as [|i ids]; [by intros ?%elem_of_nil|].
  destruct (fetch_group_details vk (i :: ids)) as [info|] eqn:Hinfo;
    [|by intros ?%elem_of_nil].
  intros [_ Hg]%list_elem_of_filter. by eapply groups_are_not_users.
Qed.

Lemma crawl_writes st :
  reachable vk max_depth max_nodes user_id current_level st →
  (∀ u l, (u, l) ∈ queue st → U u)
  ∧ writes_separated U (writes (trace st))
  ∧ ∀ g, linked g (writes (trace st)).
Proof.
  induction 1 as [|st Hst (IHq & [IHu IHg] & IHl) Hfin].
  { split_and!.
    - by intros u l ?%list_elem_of_singleton; simplify_eq.
    - split; by intros ? ?%elem_of_nil.
    - done. }
  assert (∀ uid level q, queue st = (uid, level) :: q →
            U uid ∧ ∀ u l, (u, l) ∈ q → U u) as Htail.
  { intros uid level q Hq. rewrite Hq in IHq. split.
    - apply (IHq uid level). by left.
    - intros u l Hu. apply (IHq u l). by right. }
  destruct (iteration_cases vk max_depth max_nodes st) as
    [Hq | uid level q Hq Hskip | uid level q Hq Hnew Hlevel Hlimit
     | uid level q Hq Hnew Hlevel Hlimit Habs
     | uid level q r rest Hq Hnew Hlevel Hlimit Hinfo].
  - rewrite (iteration_empty _ _ _ st Hq). simpl.
    rewrite writes_app, app_nil_r. split_and!; [by intros ?? ?%elem_of_nil|done|done].
  - rewrite (iteration_skip _ _ _ st uid level q Hq Hskip). simpl.
    split_and!; [by apply (Htail uid level)|done|done].
  - rewrite (iteration_limit _ _ _ st uid level q Hq Hnew Hlevel Hlimit). simpl.
    rewrite writes_app, app_nil_r. split_and!; [by apply (Htail uid level)|done|done].
  - rewrite (iteration_failed _ _ _ st uid level q Hq Hnew Hlevel Hlimit Habs). simpl.
    rewrite writes_app, app_nil_r. split_and!; [by apply (Htail uid level)|done|done].
  - rewrite (iteration_expand _ _ _ st uid level q r rest Hq Hnew Hlevel Hlimit Hinfo).
    simpl. rewrite writes_app, writes_expansion_events.
    destruct (Htail uid level q Hq) as [Huid Hrest].
    pose proof (detail_of_requested uid r rest Hinfo) as Hr.
    set (P := {[uid]} ∪ processed st).
    split_and!.
    + intros u l [Hu | Hu]%elem_of_app; [by eapply Hrest|].
      apply list_elem_of_fmap in Hu as (f & ? & Hf). simplify_eq.
      by eapply new_followers_users.
    + split.
      * intros r' [Hr' | Hr']%elem_of_app; [by apply IHu|].
        apply elem_of_cons in Hr' as [Heq | Hr']; [injection Heq as ->; by rewrite Hr|].
        apply elem_of_app in Hr' as [Hr' | Hr'].
        -- apply list_elem_of_bind in Hr' as (f & Hin & Hf).
           apply elem_of_cons in Hin as [? | Hin];
             [simplify_eq; by eapply new_followers_users|].
           apply list_elem_of_singleton in Hin. done.
        -- apply list_elem_of_bind in Hr' as (grp & Hin & Hgrp).
           apply elem_of_cons in Hin as [? | Hin]; [done|].
           apply list_elem_of_singleton in Hin. done.
      * intros g' [Hg' | Hg']%elem_of_app; [by apply IHg|].
        apply elem_of_cons in Hg' as [? | Hg']; [done|].
        apply elem_of_app in Hg' as [Hg' | Hg'].
        -- apply list_elem_of_bind in Hg' as (f & Hin & Hf).
           apply elem_of_cons in Hin as [? | Hin]; [done|].
           apply list_elem_of_singleton in Hin. done.
        -- apply list_elem_of_bind in Hg' as (grp & Hin & Hgrp).
           apply elem_of_cons in Hin as [? | Hin];
             [simplify_eq; by eapply new_groups_not_users|].
           apply list_elem_of_singleton in Hin. done.
    + intros g. apply linked_app. split; [done|].
      simpl. split; [done|].
      assert (has_id (store_user r (run_writes (writes (trace st)) g)) uid) as Hid.
      { rewrite <- Hr. apply has_id_store_user. }
      apply linked_app. split; [by apply linked_follower_writes|].
      by apply linked_group_writes, has_id_run_writes.
Qed.

End Crawl_twice.

(** * The properties of the specification *)

(** Decides a closed proposition by evaluation. *)
Ltac by_evaluation := apply (bool_decide_unpack _); vm_compute; exact I.

Lemma reachable_after vk max_depth max_nodes user_id current_level n :
  reachable vk max_depth max_nodes user_id current_level
    (run vk max_depth max_nodes n (initial user_id current_level)).
Proof. apply reachable_run. constructor. Qed.

(** C1. Depth bound. In every state of a run, every expanded node was popped
    at a level of at most [max_depth]; an item whose level is above
    [max_depth] is dropped from the front of the queue and nothing else
    changes: no request, no write, no log line, it is not marked and not
    counted. Yet when a node popped at level [max_depth] is expanded, each
    of its followers that is not marked is upserted, gets its FOLLOWS
    relationship to the node, and is queued at level [max_depth + 1]. *)
Theorem depth_bound vk max_depth max_nodes user_id current_level st :
  reachable vk max_depth max_nodes user_id current_level st →
  (∀ uid level, (uid, level) ∈ expanded (trace st) → level ≤ max_depth)
  ∧ (∀ uid level q,
       queue st = (uid, level) :: q → level > max_depth →
       iteration vk max_depth max_nodes st =
       State q (processed st) (node_count st) false (trace st))
  ∧ (∀ uid q r rest ids info f,
       queue st = (uid, max_depth) :: q →
       uid ∉ processed st → node_count st + 1 ≤ max_nodes →
       fetch_user_info vk (UserId uid) = Some (r :: rest) →
       fetch_followers vk uid = Some ids →
       fetch_followers_details vk ids = Some info →
       f ∈ info → u_id f ∉ ({[uid]} ∪ processed st : gset Z) →
       Tx (StoreUser f) ∈ trace (iteration vk max_depth max_nodes st)
       ∧ Tx (CreateRelationship (u_id f) uid FOLLOWS)
           ∈ trace (iteration vk max_depth max_nodes st)
       ∧ (u_id f, max_depth + 1) ∈ queue (iteration vk max_depth max_nodes st)).
Proof.
  intros Hst. split_and!.
  - by apply (expanded_within_depth vk max_depth max_nodes user_id current_level).
  - intros uid level q Hq Hdeep. apply (iteration_skip _ _ _ st uid level q Hq). by right.
  - intros uid q r rest ids info f Hq Hnew Hlimit Hinfo Hids Hdetails Hf Hfresh.
    rewrite (iteration_expand _ _ _ st uid max_depth q r rest Hq Hnew) by (done || lia).
    simpl.
    assert (f ∈ new_followers vk ({[uid]} ∪ processed st) uid) as Hin.
    { unfold new_followers. rewrite Hids, Hdetails. by apply list_elem_of_filter. }
    assert (∀ e, e ∈ follower_events uid max_depth f →
                 e ∈ trace st ++ expansion_events vk ({[uid]} ∪ processed st) uid max_depth r)
      as Hev.
    { intros e He. unfold expansion_events.
      rewrite !elem_of_app. right. right. left. right.
      apply list_elem_of_bind. by exists f. }
    split_and!.
    + apply Hev. by left.
    + apply Hev. right. by left.
    + apply elem_of_app. right.
      by apply (list_elem_of_fmap_2 (λ f : user_data, (u_id f, max_depth + 1))).
Qed.

(** The scenario with [max_depth = 0]: the followers 2 and 3 of the seed are
    stored and queued at level 1, and dropped when they are popped. *)
Lemma depth_bound_witness :
  (∀ uid level,
     (uid, level) ∈ expanded (trace (run Sample.scenario 0 10 4 (initial 1 0))) → level ≤ 0)
  ∧ iteration Sample.scenario 0 10 (run Sample.scenario 0 10 1 (initial 1 0)) =
    State [(3, 1)] {[1]} 1 false (trace (run Sample.scenario 0 10 1 (initial 1 0)))
  ∧ Tx (StoreUser (Sample.user 2)) ∈ trace (iteration Sample.scenario 0 10 (initial 1 0))
  ∧ Tx (CreateRelationship 2 1 FOLLOWS) ∈ trace (iteration Sample.scenario 0 10 (initial 1 0))
  ∧ (2, 1) ∈ queue (iteration Sample.scenario 0 10 (initial 1 0)).
Proof.
  split_and!.
  - apply (depth_bound Sample.scenario 0 10 1 0), reachable_after.
  - pose proof (depth_bound Sample.scenario 0 10 1 0 _ (reachable_after _ _ _ 1 0 1))
      as (_ & Hskip & _).
    rewrite (Hskip 2 1 [(3, 1)]); [reflexivity | reflexivity | vm_compute; done].
  - pose proof (depth_bound Sample.scenario 0 10 1 0 _ (reachable_after _ _ _ 1 0 0))
      as (_ & _ & Hnext).
    apply (Hnext 1 [] (Sample.user 1) [] [2; 3] [Sample.user 2; Sample.user 3]
             (Sample.user 2));
      [ reflexivity | apply not_elem_of_empty | simpl; lia | reflexivity | reflexivity
      | reflexivity | by left | by_evaluation ].
  - pose proof (depth_bound Sample.scenario 0 10 1 0 _ (reachable_after _ _ _ 1 0 0))
      as (_ & _ & Hnext).
    apply (Hnext 1 [] (Sample.user 1) [] [2; 3] [Sample.user 2; Sample.user 3]
             (Sample.user 2));
      [ reflexivity | apply not_elem_of_empty | simpl; lia | reflexivity | reflexivity
      | reflexivity | by left | by_evaluation ].
  - pose proof (depth_bound Sample.scenario 0 10 1 0 _ (reachable_after _ _ _ 1 0 0))
      as (_ & _ & Hnext).
    apply (Hnext 1 [] (Sample.user 1) [] [2; 3] [Sample.user 2; Sample.user 3]
             (Sample.user 2));
      [ reflexivity | apply not_elem_of_empty | simpl; lia | reflexivity | reflexivity
      | reflexivity | by left | by_evaluation ].
Defined.

(** C2. Node budget. In every state of a run the number of expanded nodes is
    at most [max_nodes] (none is expanded when [max_nodes] is negative), and
    so is the number of requests for a detail record. When the counter
    passes [max_nodes] the loop is left at once: the popped item is marked
    and counted but nothing is requested or written for it, the rest of the
    queue stays where it is, and the writes made before are unchanged. *)
Theorem node_budget vk max_depth max_nodes user_id current_level st :
  reachable vk max_depth max_nodes user_id current_level st →
  (0 ≤ max_nodes → Z.of_nat (length (expanded (trace st))) ≤ max_nodes)
  ∧ (max_nodes < 0 → expanded (trace st) = [])
  ∧ Z.of_nat (length (detail_requests (trace st))) ≤ Z.max 0 max_nodes
  ∧ (∀ uid level q,
       queue st = (uid, level) :: q →
       uid ∉ processed st → level ≤ max_depth → node_count st + 1 > max_nodes →
       iteration vk max_depth max_nodes st =
       State q ({[uid]} ∪ processed st) (node_count st + 1) true
             (trace st ++ [Log LimitReached; Log ProcessingDone])
       ∧ (∀ fuel, loop vk max_depth max_nodes fuel (iteration vk max_depth max_nodes st)
                  = Some (iteration vk max_depth max_nodes st))
       ∧ (∀ g, replay (trace (iteration vk max_depth max_nodes st)) g
               = replay (trace st) g)).
Proof.
  intros Hst.
  pose proof (expanded_within_budget _ _ _ _ _ st Hst) as [_ Hexp].
  pose proof (requests_within_budget _ _ _ _ _ st Hst) as [_ Hreq].
  split_and!; [lia | | done |].
  - intros Hneg. destruct (expanded (trace st)); [done|]. simpl in Hexp. lia.
  - intros uid level q Hq Hnew Hlevel Hlimit.
    rewrite (iteration_limit _ _ _ st uid level q Hq Hnew Hlevel Hlimit).
    split_and!; [done | |].
    + intros fuel. by apply loop_finished.
    + intros g. simpl. by rewrite replay_app.
Qed.

(** The tree with [max_nodes = 2]: the third item popped stops the loop. *)
Lemma node_budget_witness :
  Z.of_nat (length (expanded (trace (run Sample.tree 2 2 9 (initial 1 0))))) ≤ 2
  ∧ iteration Sample.tree 2 2 (run Sample.tree 2 2 2 (initial 1 0)) =
    State [(4, 2)] ({[3]} ∪ processed (run Sample.tree 2 2 2 (initial 1 0))) (2 + 1) true
          (trace (run Sample.tree 2 2 2 (initial 1 0))
             ++ [Log LimitReached; Log ProcessingDone]).
Proof.
  split.
  - apply (node_budget Sample.tree 2 2 1 0); [apply reachable_after | lia].
  - pose proof (node_budget Sample.tree 2 2 1 0 _ (reachable_after _ _ _ 1 0 2))
      as (_ & _ & _ & Hstop).
    apply (Hstop 3 1 [(4, 2)]); [reflexivity | by_evaluation | lia | vm_compute; done].
Defined.

(** C3. Deduplication. In every state of a run no id was expanded twice and
    no detail record was requested twice; an item whose id is marked is
    dropped from the front of the queue and nothing else changes: the
    counter, the set and the events are the same. *)
Theorem expanded_at_most_once vk max_depth max_nodes user_id current_level st :
  reachable vk max_depth max_nodes user_id current_level st →
  NoDup (expanded (trace st)).*1
  ∧ NoDup (detail_requests (trace st))
  ∧ (∀ uid level q,
       queue st = (uid, level) :: q → uid ∈ processed st →
       iteration vk max_depth max_nodes st =
       State q (processed st) (node_count st) false (trace st)).
Proof.
  intros Hst. split_and!.
  - exact (proj1 (expanded_once _ _ _ _ _ st Hst)).
  - exact (proj1 (requested_once _ _ _ _ _ st Hst)).
  - intros uid level q Hq Hin. apply (iteration_skip _ _ _ st uid level q Hq). by left.
Qed.

(** User 3 follows the users 1 and 2, and user 2 follows user 1: user 3 is
    queued twice, and dropped the second time it is popped. *)
Lemma expanded_at_most_once_witness :
  let vk := Sample.make [1; 2; 3]
              (λ i, if decide (i = 1) then [2; 3] else if decide (i = 2) then [3] else [])
              (λ _, []) in
  let st := run vk 5 10 3 (initial 1 0) in
  NoDup (expanded (trace (run vk 5 10 9 (initial 1 0)))).*1
  ∧ iteration vk 5 10 st = State [] (processed st) (node_count st) false (trace st).
Proof.
  intros vk st. split.
  - apply (expanded_at_most_once vk 5 10 1 0), reachable_after.
  - pose proof (expanded_at_most_once vk 5 10 1 0 st (reachable_after _ _ _ 1 0 3))
      as (_ & _ & Hskip).
    apply (Hskip 3 2 []); [reflexivity | by_evaluation].
Defined.

(** C4. Breadth-first order. The queue starts as the seed at the level
    given by the caller ([main] gives 0); the loop body takes the item at
    the front and puts new items, one level deeper, at the back. Hence in
    every state of a run the levels of the expanded nodes, in the order of
    their expansion, followed by the levels of the waiting items, never
    decrease: when a node of level [d + 1] is expanded, no item of level
    [d] waits any more, and a node is expanded after every expanded node of
    a lower level. *)
Theorem breadth_first_order vk max_depth max_nodes user_id current_level st :
  reachable vk max_depth max_nodes user_id current_level st →
  StronglySorted Z.le ((expanded (trace st)).*2 ++ (queue st).*2)
  ∧ (∀ uid level q,
       queue st = (uid, level) :: q →
       ∃ new, queue (iteration vk max_depth max_nodes st) = q ++ new
              ∧ ∀ x, x ∈ new → x.2 = level + 1).
Proof.
  intros Hst. split.
  - exact (proj1 (fifo_order _ _ _ _ _ st Hst)).
  - intros uid level q Hq.
    destruct (iteration_cases vk max_depth max_nodes st) as
      [Hq' | uid' level' q' Hq' Hskip | uid' level' q' Hq' Hnew Hlevel Hlimit
       | uid' level' q' Hq' Hnew Hlevel Hlimit Habs
       | uid' level' q' r rest Hq' Hnew Hlevel Hlimit Hinfo];
      rewrite Hq in Hq'; simplify_eq.
    + exists []. rewrite (iteration_skip _ _ _ st uid' level' q' Hq Hskip). simpl.
      split; [by rewrite app_nil_r | by intros ? ?%elem_of_nil].
    + exists []. rewrite (iteration_limit _ _ _ st uid' level' q' Hq Hnew Hlevel Hlimit).
      simpl. split; [by rewrite app_nil_r | by intros ? ?%elem_of_nil].
    + exists []. rewrite (iteration_failed _ _ _ st uid' level' q' Hq Hnew Hlevel Hlimit Habs).
      simpl. split; [by rewrite app_nil_r | by intros ? ?%elem_of_nil].
    + eexists.
      rewrite (iteration_expand _ _ _ st uid' level' q' r rest Hq Hnew Hlevel Hlimit Hinfo).
      simpl. split; [done|].
      by intros x (f & -> & _)%list_elem_of_fmap.
Qed.

(** The tree: the seed, then its followers 2 and 3 in the order of the
    answer, then their followers 4 and 5. *)
Lemma breadth_first_order_witness :
  expanded (trace (run Sample.tree 2 200 9 (initial 1 0)))
  = [(1, 0); (2, 1); (3, 1); (4, 2); (5, 2)]
  ∧ StronglySorted Z.le
      ((expanded (trace (run Sample.tree 2 200 3 (initial 1 0)))).*2
       ++ (queue (run Sample.tree 2 200 3 (initial 1 0))).*2)
  ∧ ∃ new, queue (iteration Sample.tree 2 200 (run Sample.tree 2 200 1 (initial 1 0)))
           = [(3, 1)] ++ new
           ∧ ∀ x, x ∈ new → x.2 = 1 + 1.
Proof.
  split; [reflexivity|]. split.
  - apply (breadth_first_order Sample.tree 2 200 1 0), reachable_after.
  - pose proof (breadth_first_order Sample.tree 2 200 1 0 _ (reachable_after _ _ _ 1 0 1))
      as [_ Hpop].
    apply (Hpop 2 1 [(3, 1)]). reflexivity.
Defined.

(** When the detail record of the seed is not answered, nothing is ever
    written. *)
Lemma seed_failed vk max_depth max_nodes user_id current_level st :
  absent (fetch_user_info vk (UserId user_id)) →
  reachable vk max_depth max_nodes user_id current_level st →
  writes (trace st) = []
  ∧ (queue st = [] ∨ queue st = [(user_id, current_level)]).
Proof.
  intros Habsent. induction 1 as [|st Hst [IHw IHq] Hfin]; [split; [done | by right]|].
  destruct (iteration_cases vk max_depth max_nodes st) as
    [Hq | uid level q Hq Hskip | uid level q Hq Hnew Hlevel Hlimit
     | uid level q Hq Hnew Hlevel Hlimit Habs
     | uid level q r rest Hq Hnew Hlevel Hlimit Hinfo].
  - rewrite (iteration_empty _ _ _ st Hq). simpl. rewrite writes_app, IHw. by split; [|left].
  - rewrite (iteration_skip _ _ _ st uid level q Hq Hskip). simpl.
    split; [done|]. left. destruct IHq as [IHq|IHq]; rewrite IHq in Hq; by simplify_eq.
  - rewrite (iteration_limit _ _ _ st uid level q Hq Hnew Hlevel Hlimit). simpl.
    rewrite writes_app, IHw.
    split; [done|]. left. destruct IHq as [IHq|IHq]; rewrite IHq in Hq; by simplify_eq.
  - rewrite (iteration_failed _ _ _ st uid level q Hq Hnew Hlevel Hlimit Habs). simpl.
    rewrite writes_app, IHw.
    split; [done|]. left. destruct IHq as [IHq|IHq]; rewrite IHq in Hq; by simplify_eq.
  - exfalso. destruct IHq as [IHq|IHq]; rewrite IHq in Hq; simplify_eq.
    destruct Habsent as [Ha|Ha]; rewrite Ha in Hinfo; done.
Qed.

(** C5, as the specification states it, fails: a node whose detail record
    is not answered can be in the store. In [Sample.lost_follower] the
    detail record of user 2 is not answered, and user 2 was upserted from
    its follower record when user 1 was expanded, before it was popped. *)
Lemma failed_node_written_counterexample :
  let tr := trace (run Sample.lost_follower 2 200 9 (initial 1 0)) in
  absent (fetch_user_info Sample.lost_follower (UserId 2))
  ∧ detail_requests tr = [1; 2]
  ∧ writes tr =
    [StoreUser (Sample.user 1); StoreUser (Sample.user 2); CreateRelationship 2 1 FOLLOWS]
  ∧ has_user (replay tr empty_graph) 2.
Proof.
  split_and!; [by left | reflexivity | reflexivity | by_evaluation].
Qed.

(** C5, amended. When the detail record of the popped id is not answered,
    the loop body ends with the request and one log line: the id is marked
    and counted, nothing is written for this item (a node that was stored
    as a follower before stays as it is), and the loop goes on with the
    rest of the queue. In no state of a run were the followers or the
    subscriptions of such an id requested. When the id is the seed, no
    state of the run has a write; and when [main] gets no record for the
    seed, it ends with status 0 and without a write. *)
Theorem failed_detail_fetch vk max_depth max_nodes user_id current_level st :
  reachable vk max_depth max_nodes user_id current_level st →
  (∀ uid level q,
     queue st = (uid, level) :: q →
     uid ∉ processed st → level ≤ max_depth → node_count st + 1 ≤ max_nodes →
     absent (fetch_user_info vk (UserId uid)) →
     iteration vk max_depth max_nodes st =
     State q ({[uid]} ∪ processed st) (node_count st + 1) false
           (trace st ++ [Call (FetchUserInfo (UserId uid)); Log (UserFetchFailed uid)]))
  ∧ (∀ uid,
       absent (fetch_user_info vk (UserId uid)) →
       (Call (FetchFollowers uid) ∉ trace st) ∧ (Call (FetchSubscriptions uid) ∉ trace st))
  ∧ (absent (fetch_user_info vk (UserId user_id)) →
     writes (trace st) = [] ∧ ∀ g, replay (trace st) g = g)
  ∧ (∀ fuel env args,
       truthy (VK_ACCESS_TOKEN env) = true → truthy (args_query args) = false →
       absent (fetch_user_info vk
                 (UserName (str_or (default "" (args_user_id args)) "185283514"))) →
       ∃ tr, main fuel env args vk = Some (0, tr) ∧ writes tr = []).
Proof.
  intros Hst. split_and!.
  - intros uid level q. apply iteration_failed.
  - intros uid Habs.
    assert (¬ (FetchFollowers uid ∈ calls (trace st)
               ∨ FetchSubscriptions uid ∈ calls (trace st))) as Hno.
    { intros Hc.
      destruct (requests_after_detail _ _ _ _ _ st Hst uid Hc) as (r & rest & Hinfo).
      destruct Habs as [Ha|Ha]; rewrite Ha in Hinfo; done. }
    rewrite <- !elem_of_calls. tauto.
  - intros Habs. destruct (seed_failed _ _ _ _ _ st Habs Hst) as [Hw _].
    split; [done|]. intros g. unfold replay. by rewrite Hw.
  - intros fuel env args Htoken Hquery Habs. unfold main. rewrite Htoken, Hquery. simpl.
    destruct Habs as [-> | ->]; eexists; (split; [reflexivity | done]).
Qed.

(** The follower 2 whose record is not answered; a seed that is not
    answered, in the loop and in [main]. *)
Lemma failed_detail_fetch_witness :
  iteration Sample.lost_follower 2 200 (run Sample.lost_follower 2 200 1 (initial 1 0)) =
  State [] ({[2]} ∪ processed (run Sample.lost_follower 2 200 1 (initial 1 0))) (1 + 1) false
        (trace (run Sample.lost_follower 2 200 1 (initial 1 0))
           ++ [Call (FetchUserInfo (UserId 2)); Log (UserFetchFailed 2)])
  ∧ (Call (FetchFollowers 2) ∉ trace (run Sample.lost_follower 2 200 9 (initial 1 0)))
  ∧ writes (trace (run Sample.unreachable 2 200 9 (initial 1 0))) = []
  ∧ ∃ tr, main 9 (Environment (Some "token") None None) (Args None 5 None 2 200)
               Sample.unreachable = Some (0, tr)
          ∧ writes tr = [].
Proof.
  split_and!.
  - pose proof (failed_detail_fetch Sample.lost_follower 2 200 1 0 _
                  (reachable_after _ _ _ 1 0 1)) as (Hfail & _).
    apply (Hfail 2 1 []); [reflexivity | by_evaluation | lia | vm_compute; done | by left].
  - pose proof (failed_detail_fetch Sample.lost_follower 2 200 1 0 _
                  (reachable_after _ _ _ 1 0 9)) as (_ & Hnever & _).
    apply (Hnever 2). by left.
  - pose proof (failed_detail_fetch Sample.unreachable 2 200 1 0 _
                  (reachable_after _ _ _ 1 0 9)) as (_ & _ & Hseed & _).
    apply Hseed. by left.
  - pose proof (failed_detail_fetch Sample.unreachable 2 200 1 0 _
                  (reachable_after _ _ _ 1 0 0)) as (_ & _ & _ & Hmain).
    apply Hmain; [reflexivity | reflexivity | by left].
Defined.

Lemma elem_of_nodes_user g i : has_user g i → (User, i) ∈ nodes_with_id g i.
Proof.
  intros H. unfold nodes_with_id. apply elem_of_app. left.
  rewrite decide_True by exact H. by left.
Qed.

Lemma elem_of_nodes_group g i : has_group g i → (Group, i) ∈ nodes_with_id g i.
Proof.
  intros H. unfold nodes_with_id. apply elem_of_app. right.
  rewrite decide_True by exact H. by left.
Qed.

Lemma elem_of_matched g x y ty a b :
  a ∈ nodes_with_id g x → b ∈ nodes_with_id g y → (a, ty, b) ∈ matched g x y ty.
Proof.
  intros Ha Hb. unfold matched. apply elem_of_list_to_set.
  apply list_elem_of_bind. exists a. split; [|done].
  apply list_elem_of_bind. exists b. split; [by left | done].
Qed.

Lemma matched_users g x y ty :
  has_user g x → has_user g y → ((User, x), ty, (User, y)) ∈ matched g x y ty.
Proof. intros Hx Hy. by apply elem_of_matched; apply elem_of_nodes_user. Qed.

Lemma matched_user_group g x y ty :
  has_user g x → has_group g y → ((User, x), ty, (Group, y)) ∈ matched g x y ty.
Proof.
  intros Hx Hy. by apply elem_of_matched; [apply elem_of_nodes_user | apply elem_of_nodes_group].
Qed.

(** C6, as the specification states it, fails: a group that was handled is
    not put into the set. The seed 1 and its follower 2 subscribe to the
    same page 100: after the expansion of 1 the set does not hold 100, and
    at the expansion of 2 the group is handled again. *)
Lemma groups_marked_visited_counterexample :
  ¬ (∀ vk max_depth max_nodes st uid level q r rest items i ids info grp,
       queue st = (uid, level) :: q →
       uid ∉ processed st → level ≤ max_depth → node_count st + 1 ≤ max_nodes →
       fetch_user_info vk (UserId uid) = Some (r :: rest) →
       fetch_subscriptions vk uid = Some (SubscriptionsData (Some items)) →
       page_ids items = i :: ids →
       fetch_group_details vk (i :: ids) = Some info →
       grp ∈ info → g_id grp ∉ ({[uid]} ∪ processed st : gset Z) →
       g_id grp ∈ processed (iteration vk max_depth max_nodes st))
  ∧ writes (trace (run Sample.shared_group 2 200 9 (initial 1 0))) =
    [StoreUser (Sample.user 1);
     StoreUser (Sample.user 2); CreateRelationship 2 1 FOLLOWS;
     StoreGroup (Sample.group 100); CreateRelationship 1 100 SUBSCRIBED_TO;
     StoreUser (Sample.user 2);
     StoreGroup (Sample.group 100); CreateRelationship 2 100 SUBSCRIBED_TO].
Proof.
  split; [|reflexivity].
  intros H.
  specialize (H Sample.shared_group 2 200 (initial 1 0) 1 0 [] (Sample.user 1) []
                [SubscriptionItem 100 (Some "page")] 100 [] [Sample.group 100]
                (Sample.group 100)).
  assert (100 ∉ processed (iteration Sample.shared_group 2 200 (initial 1 0))) as Hno
    by by_evaluation.
  apply Hno, H;
    [ reflexivity | apply not_elem_of_empty | lia | simpl; lia | reflexivity | reflexivity
    | reflexivity | reflexivity | by left | by_evaluation ].
Qed.

(** C6, amended. When a node is expanded, the groups answered for its
    subscriptions of type page whose id is not in the set are, in the order
    of the answer, upserted and given a SUBSCRIBED_TO relationship from the
    node; the other groups are passed over. The id of a group is not put
    into the set: after the expansion the set holds what it held before and
    the id of the node. *)
Theorem groups_not_marked vk max_depth max_nodes st uid level q r rest items i ids info :
  queue st = (uid, level) :: q →
  uid ∉ processed st → level ≤ max_depth → node_count st + 1 ≤ max_nodes →
  fetch_user_info vk (UserId uid) = Some (r :: rest) →
  fetch_subscriptions vk uid = Some (SubscriptionsData (Some items)) →
  page_ids items = i :: ids →
  fetch_group_details vk (i :: ids) = Some info →
  let P : gset Z := {[uid]} ∪ processed st in
  let handled := filter (λ g, g_id g ∉ P) info in
  groups_loop P uid info = handled ≫= group_events uid
  ∧ expand_subscriptions vk P uid =
    [Call (FetchSubscriptions uid); Call (FetchGroupDetails (i :: ids))]
    ++ (handled ≫= group_events uid)
  ∧ (∃ before, trace (iteration vk max_depth max_nodes st) =
               trace st ++ before ++ expand_subscriptions vk P uid
               ++ [Log (LevelDone level uid)])
  ∧ processed (iteration vk max_depth max_nodes st) = P
  ∧ (∀ grp g, has_user g uid →
       ((User, uid), SUBSCRIBED_TO, (Group, g_id grp))
       ∈ rels (run_writes (writes (group_events uid grp)) g)).
Proof.
  intros Hq Hnew Hlevel Hlimit Hinfo Hsubs Hpages Hgroups P handled.
  split_and!.
  - apply groups_loop_filter.
  - rewrite expand_subscriptions_eq. unfold subscription_calls, new_groups.
    by rewrite Hsubs, Hpages, Hgroups.
  - rewrite (iteration_expand _ _ _ st uid level q r rest Hq Hnew Hlevel Hlimit Hinfo).
    simpl. unfold expansion_events. rewrite expand_subscriptions_eq.
    exists ([Call (FetchUserInfo (UserId uid)); Tx (StoreUser r);
             Log (UserAdded (u_id r) level)]
            ++ follower_calls vk uid
            ++ (new_followers vk P uid ≫= follower_events uid level)).
    by rewrite <- !app_assoc.
  - by rewrite (iteration_expand _ _ _ st uid level q r rest Hq Hnew Hlevel Hlimit Hinfo).
  - intros grp g Hu. simpl.
    change (((User, uid), SUBSCRIBED_TO, (Group, g_id grp))
            ∈ rels (store_group grp g) ∪ matched (store_group grp g) uid (g_id grp) SUBSCRIBED_TO).
    apply elem_of_union_r, matched_user_group; [done|].
    unfold has_group. simpl. rewrite lookup_insert_eq. eauto.
Qed.

(** The seed of [Sample.shared_group]. *)
Lemma groups_not_marked_witness :
  groups_loop {[1]} 1 [Sample.group 100] = [Sample.group 100] ≫= group_events 1
  ∧ processed (iteration Sample.shared_group 2 200 (initial 1 0)) = {[1]}.
Proof.
  pose proof (groups_not_marked Sample.shared_group 2 200 (initial 1 0) 1 0 []
                (Sample.user 1) [] [SubscriptionItem 100 (Some "page")] 100 []
                [Sample.group 100]) as H.
  destruct H as (Hloop & _ & _ & Hset & _);
    [ reflexivity | apply not_elem_of_empty | lia | simpl; lia | reflexivity | reflexivity
    | reflexivity | reflexivity | ].
  split.
  - replace ({[1]} : gset Z) with ({[1]} ∪ processed (initial 1 0) : gset Z) by set_solver.
    rewrite Hloop. reflexivity.
  - rewrite Hset. set_solver.
Defined.

(** C7. Followers. When a node is expanded and its followers are answered,
    the followers whose id is not in the set (which holds the id of the node
    itself) are handled, in the order of the answer, and no other: each is
    upserted, then given a FOLLOWS relationship from the follower to the
    node, then put at the back of the queue one level deeper. A follower
    whose id is in the set gets no event at all. *)
Theorem followers_expansion vk max_depth max_nodes st uid level q r rest ids info :
  queue st = (uid, level) :: q →
  uid ∉ processed st → level ≤ max_depth → node_count st + 1 ≤ max_nodes →
  fetch_user_info vk (UserId uid) = Some (r :: rest) →
  fetch_followers vk uid = Some ids →
  fetch_followers_details vk ids = Some info →
  let P : gset Z := {[uid]} ∪ processed st in
  let handled := filter (λ f, u_id f ∉ P) info in
  followers_loop P uid level info q =
    (handled ≫= (λ f, [Tx (StoreUser f);
                       Tx (CreateRelationship (u_id f) uid FOLLOWS);
                       Log (RelationshipCreated FOLLOWS (u_id f) uid);
                       Log (FollowerAdded (u_id f) uid (level + 1))]),
     q ++ ((λ f, (u_id f, level + 1)) <$> handled))
  ∧ trace (iteration vk max_depth max_nodes st) =
    trace st
      ++ [Call (FetchUserInfo (UserId uid)); Tx (StoreUser r);
          Log (UserAdded (u_id r) level);
          Call (FetchFollowers uid); Call (FetchFollowersDetails ids)]
      ++ (handled ≫= follower_events uid level)
      ++ expand_subscriptions vk P uid
      ++ [Log (LevelDone level uid)]
  ∧ queue (iteration vk max_depth max_nodes st) =
    q ++ ((λ f, (u_id f, level + 1)) <$> handled)
  ∧ (∀ f g, has_user g uid →
       ((User, u_id f), FOLLOWS, (User, uid))
       ∈ rels (run_writes (writes (follower_events uid level f)) g)).
Proof.
  intros Hq Hnew Hlevel Hlimit Hinfo Hids Hdetails P handled.
  assert (new_followers vk P uid = handled) as Hhandled.
  { unfold new_followers. by rewrite Hids, Hdetails. }
  split_and!.
  - apply followers_loop_filter.
  - rewrite (iteration_expand _ _ _ st uid level q r rest Hq Hnew Hlevel Hlimit Hinfo).
    simpl. unfold expansion_events. rewrite expand_subscriptions_eq.
    fold P. rewrite Hhandled. unfold follower_calls. rewrite Hids.
    by rewrite <- !app_assoc.
  - rewrite (iteration_expand _ _ _ st uid level q r rest Hq Hnew Hlevel Hlimit Hinfo).
    simpl. fold P. by rewrite Hhandled.
  - intros f g Hu. simpl.
    change (((User, u_id f), FOLLOWS, (User, uid))
            ∈ rels (store_user f g) ∪ matched (store_user f g) (u_id f) uid FOLLOWS).
    apply elem_of_union_r, matched_users.
    + unfold has_user. simpl. rewrite lookup_insert_eq. eauto.
    + by apply (has_user_apply_write (StoreUser f)).
Qed.

(** User 3 follows the users 1 and 2, and user 2 follows user 1: when user 2
    is expanded, its follower 3 is not in the set and is queued a second
    time. *)
Lemma followers_expansion_witness :
  let vk := Sample.make [1; 2; 3]
              (λ i, if decide (i = 1) then [2; 3] else if decide (i = 2) then [3] else [])
              (λ _, []) in
  queue (iteration vk 5 10 (run vk 5 10 1 (initial 1 0))) = [(3, 1)] ++ [(3, 1 + 1)]
  ∧ queue (iteration vk 5 10 (initial 1 0)) = [] ++ [(2, 0 + 1); (3, 0 + 1)].
Proof.
  intros vk. split.
  - pose proof (followers_expansion vk 5 10 (run vk 5 10 1 (initial 1 0)) 2 1 [(3, 1)]
                  (Sample.user 2) [] [3] [Sample.user 3]) as H.
    destruct H as (_ & _ & Hqueue & _);
      [ reflexivity | by_evaluation | lia | vm_compute; done | reflexivity | reflexivity
      | reflexivity | ].
    rewrite Hqueue. reflexivity.
  - pose proof (followers_expansion vk 5 10 (initial 1 0) 1 0 []
                  (Sample.user 1) [] [2; 3] [Sample.user 2; Sample.user 3]) as H.
    destruct H as (_ & _ & Hqueue & _);
      [ reflexivity | apply not_elem_of_empty | lia | simpl; lia | reflexivity | reflexivity
      | reflexivity | ].
    rewrite Hqueue. reflexivity.
Defined.



(** C8, as the specification states it, fails: user 1 has the follower 2
    and subscribes to the page whose id is also 2. In the first crawl the
    FOLLOWS relationship from id 2 to id 1 is created when the only node
    with id 2 is the user; in the second crawl the group with id 2 is
    there from the start, the pattern without a label matches it too, and
    the group gets a FOLLOWS relationship to user 1. *)
Lemma crawl_twice_counterexample :
  let tr := trace (run Sample.collision 2 200 9 (initial 1 0)) in
  let g1 := replay tr empty_graph in
  let g2 := replay tr g1 in
  crawl Sample.collision 2 200 9 1 empty_graph = Some g1
  ∧ crawl Sample.collision 2 200 9 1 g1 = Some g2
  ∧ (((Group, 2), FOLLOWS, (User, 1)) ∉ rels g1)
  ∧ (((Group, 2), FOLLOWS, (User, 1)) ∈ rels g2)
  ∧ g2 ≠ g1.
Proof.
  intros tr g1 g2.
  assert (((Group, 2), FOLLOWS, (User, 1)) ∉ rels g1) as Hout by by_evaluation.
  assert (((Group, 2), FOLLOWS, (User, 1)) ∈ rels g2) as Hin by by_evaluation.
  split_and!; [reflexivity | reflexivity | done | done |].
  intros Heq. apply Hout. by rewrite <- Heq.
Qed.

(** The second condition of the amended C8 is needed as well: when the
    record answered for the seed 1 carries another id, the FOLLOWS
    relationship of its follower finds no node with id 1 in the first crawl,
    and finds the node stored later in the second crawl. *)
Lemma crawl_twice_needs_detail_of_requested :
  let tr := trace (run Sample.renamed 2 200 9 (initial 1 0)) in
  let g1 := replay tr empty_graph in
  crawl Sample.renamed 2 200 9 1 empty_graph = Some g1
  ∧ rels g1 = ∅
  ∧ ((User, 2), FOLLOWS, (User, 1)) ∈ rels (replay tr g1).
Proof. split_and!; [reflexivity | reflexivity | by_evaluation]. Qed.

(** C8, amended. Each write transaction is idempotent: an upsert sets the
    properties of the one node with that label and id and leaves the other
    nodes alone, and repeating any write at once changes nothing. A second
    crawl with the same answers leaves the graph of the first crawl
    unchanged, when the ids of users and the ids of groups are apart ([U]
    holds of the seed, of the followers answered and of the users stored,
    and of no group answered or stored) and the detail record answered for
    an id carries that id. The crawl ends for every graph. *)
Theorem crawl_twice vk max_depth max_nodes user_id (U : Z → Prop) fuel g g1 :
  (∀ u r rest, fetch_user_info vk (UserId u) = Some (r :: rest) → u_id r = u) →
  (∀ ids info f, fetch_followers_details vk ids = Some info → f ∈ info → U (u_id f)) →
  (∀ ids info grp, fetch_group_details vk ids = Some info → grp ∈ info → ¬ U (g_id grp)) →
  U user_id →
  separated U g →
  crawl vk max_depth max_nodes fuel user_id g = Some g1 →
  crawl vk max_depth max_nodes fuel user_id g1 = Some g1
  ∧ (∀ w g', apply_write w (apply_write w g') = apply_write w g')
  ∧ (∀ r g' k, k ≠ u_id r →
       users (store_user r g') !! k = users g' !! k
       ∧ groups (store_user r g') = groups g' ∧ rels (store_user r g') = rels g')
  ∧ (∀ grp g' k, k ≠ g_id grp →
       groups (store_group grp g') !! k = groups g' !! k
       ∧ users (store_group grp g') = users g' ∧ rels (store_group grp g') = rels g')
  ∧ (∃ fuel' g', crawl vk max_depth max_nodes fuel' user_id g = Some g').
Proof.
  intros Hdetail Hfollowers Hgroups Hseed Hsep Hcrawl. split_and!.
  - unfold crawl in *.
    destruct (process_network vk max_depth max_nodes fuel user_id 0) as [st|] eqn:Hrun;
      [|done].
    simpl in *. simplify_eq. f_equal.
    apply reachable_process_network in Hrun.
    destruct (crawl_writes vk max_depth max_nodes user_id 0 U
                Hdetail Hfollowers Hgroups Hseed st Hrun) as (_ & Hws & Hlinked).
    by apply (run_writes_twice U).
  - apply apply_write_twice.
  - intros r g' k Hk. simpl. by rewrite lookup_insert_ne.
  - intros grp g' k Hk. simpl. by rewrite lookup_insert_ne.
  - destruct (loop_terminates vk max_depth max_nodes (initial user_id 0)) as (fuel' & st & Hst).
    exists fuel', (replay (trace st) g). unfold crawl, process_network. by rewrite Hst.
Qed.

(** The scenario of the specification, whose users have ids below 100 and
    whose groups have the id 100. *)
Lemma crawl_twice_witness :
  let g1 := replay (trace (run Sample.scenario 1 10 9 (initial 1 0))) empty_graph in
  crawl Sample.scenario 1 10 9 1 g1 = Some g1.
Proof.
  intros g1.
  apply (crawl_twice Sample.scenario 1 10 1 (λ i, i < 100) 9 empty_graph g1).
  - intros u r rest. simpl. destruct (decide (u ∈ [1; 2; 3])); [|done].
    intros ?; by simplify_eq.
  - intros ids info f. simpl. unfold Sample.users_of.
    destruct (filter (λ i, i < 100) ids) as [|i l] eqn:Hl; [done|].
    intros Hinfo Hf. injection Hinfo as <-.
    change (f ∈ Sample.user <$> i :: l) in Hf.
    apply list_elem_of_fmap in Hf as (j & -> & Hj). simpl.
    rewrite <- Hl in Hj. by apply list_elem_of_filter in Hj as [Hj _].
  - intros ids info grp Hinfo Hgrp. simpl in Hinfo. unfold Sample.groups_of in Hinfo.
    simplify_eq. apply list_elem_of_fmap in Hgrp as (j & -> & Hj). simpl.
    apply list_elem_of_filter in Hj as [Hj _]. lia.
  - lia.
  - split; intros i [x Hx]; simpl in Hx; by rewrite lookup_empty in Hx.
  - reflexivity.
Defined.




(** * Further properties of the script *)

(** ** The write transactions *)

Lemma users_store_user r g : users (store_user r g) = <[u_id r := stored_user r]> (users g).
Proof. reflexivity. Qed.

Lemma groups_store_group grp g :
  groups (store_group grp g) = <[g_id grp := stored_group grp]> (groups g).
Proof. reflexivity. Qed.

Lemma nodes_with_id_id g i n : n ∈ nodes_with_id g i → n.2 = i.
Proof.
  unfold nodes_with_id. intros [Hn | Hn]%elem_of_app; case_decide;
    try (by apply elem_of_nil in Hn); by apply list_elem_of_singleton in Hn as ->.
Qed.

Lemma elem_of_matched_inv g x y ty e :
  e ∈ matched g x y ty →
  ∃ a b, e = (a, ty, b) ∧ a ∈ nodes_with_id g x ∧ b ∈ nodes_with_id g y.
Proof.
  unfold matched. rewrite elem_of_list_to_set.
  intros (a & (b & He & Hb)%list_elem_of_bind & Ha)%list_elem_of_bind.
  apply list_elem_of_singleton in He. eauto.
Qed.

Lemma nodes_with_id_missing g i : ¬ has_id g i → nodes_with_id g i = [].
Proof.
  intros Hno. unfold nodes_with_id, has_id, has_user, has_group in *.
  repeat case_decide; tauto.
Qed.

(** X1. No write removes anything: after any sequence of write
    transactions, every user node, every group node and every relationship
    that was in the graph is still there. *)
Theorem writes_remove_nothing ws g :
  (∀ i, has_user g i → has_user (run_writes ws g) i)
  ∧ (∀ i, has_group g i → has_group (run_writes ws g) i)
  ∧ rels g ⊆ rels (run_writes ws g).
Proof.
  split_and!.
  - intros i. apply has_user_run_writes.
  - intros i. apply has_group_run_writes.
  - apply rels_run_writes.
Qed.

(** User 1 put into the empty graph is still there after an upsert of
    another user and of a group with the same id. *)
Lemma writes_remove_nothing_witness :
  has_user (run_writes [StoreUser (Sample.user 2); StoreGroup (Sample.group 1)]
              (store_user (Sample.user 1) empty_graph)) 1.
Proof.
  apply (writes_remove_nothing [StoreUser (Sample.user 2); StoreGroup (Sample.group 1)]).
  unfold has_user. simpl. rewrite lookup_insert_eq. by eexists.
Defined.

(** X2. The last upsert wins: after a sequence of write transactions, the
    properties of the user node with a given id are those set from the last
    record stored under that id, whatever was stored under it before and
    whatever was written for other ids after. *)
Theorem last_upsert_wins ws1 r ws2 g :
  (∀ r', StoreUser r' ∈ ws2 → u_id r' ≠ u_id r) →
  users (run_writes (ws1 ++ StoreUser r :: ws2) g) !! u_id r = Some (stored_user r).
Proof.
  intros Hlater. rewrite run_writes_app. simpl.
  rewrite users_run_writes_other by done.
  rewrite users_store_user. apply lookup_insert_eq.
Qed.

(** User 1 stored twice with different names, then user 2. *)
Lemma last_upsert_wins_witness :
  let old := UserData 1 (Some "Old") (Some "Name") None None None None in
  users (run_writes ([StoreUser old] ++ StoreUser (Sample.user 1) :: [StoreUser (Sample.user 2)])
           empty_graph) !! 1
  = Some (stored_user (Sample.user 1)).
Proof.
  intros old.
  apply (last_upsert_wins [StoreUser old] (Sample.user 1) [StoreUser (Sample.user 2)]).
  intros r' Hr%list_elem_of_singleton. by injection Hr as ->.
Defined.

(** X3. The home town of a stored user: the field [home_town] of the
    record when it is there and not empty; otherwise, also when the field
    is the empty string, the title of the field [city]; and the empty
    string when that is missing too. *)
Theorem home_town_fallback r g :
  ∃ n, users (store_user r g) !! u_id r = Some n
       ∧ (∀ h, u_home_town r = Some h → h ≠ "" → home_town n = h)
       ∧ (∀ t, u_home_town r = None ∨ u_home_town r = Some "" →
               u_city r = Some (Some t) → home_town n = t)
       ∧ (u_home_town r = None ∨ u_home_town r = Some "" →
          u_city r = None ∨ u_city r = Some None → home_town n = "").
Proof.
  exists (stored_user r). rewrite users_store_user, lookup_insert_eq.
  split_and!; [done | | |].
  - intros h Hh Hne. simpl. rewrite Hh. simpl. unfold str_or. by rewrite decide_False.
  - intros t [Hh | Hh] Hc; simpl; by rewrite Hh, Hc.
  - intros [Hh | Hh] [Hc | Hc]; simpl; by rewrite Hh, Hc.
Qed.

(** A record whose home town is the empty string and whose city is titled. *)
Lemma home_town_fallback_witness :
  let r := UserData 1 None None None None (Some "") (Some (Some "Perm")) in
  ∃ n, users (store_user r empty_graph) !! 1 = Some n ∧ home_town n = "Perm".
Proof.
  intros r. destruct (home_town_fallback r empty_graph) as (n & Hn & _ & Hcity & _).
  exists n. split; [done|]. apply Hcity; [by right | done].
Defined.

(** X4. [create_relationship] creates no node, and when no node has one of
    its two ids it changes nothing at all: the relationship is not created
    and nothing tells so. *)
Theorem create_relationship_missing from_id to_id ty g :
  users (create_relationship from_id to_id ty g) = users g
  ∧ groups (create_relationship from_id to_id ty g) = groups g
  ∧ (¬ has_id g from_id ∨ ¬ has_id g to_id →
     create_relationship from_id to_id ty g = g).
Proof.
  split_and!; [done | done |].
  intros Hmissing. apply graph_eq; [done | done |].
  change (rels g ∪ matched g from_id to_id ty = rels g).
  assert (matched g from_id to_id ty = ∅) as ->; [|set_solver].
  unfold matched. destruct Hmissing as [H | H]; rewrite (nodes_with_id_missing _ _ H).
  - done.
  - induction (nodes_with_id g from_id) as [|a l IH]; [done | exact IH].
Qed.

(** A relationship to user 1 asked for before user 1 is stored. *)
Lemma create_relationship_missing_witness :
  create_relationship 2 1 FOLLOWS (store_user (Sample.user 2) empty_graph)
  = store_user (Sample.user 2) empty_graph.
Proof.
  apply (create_relationship_missing 2 1 FOLLOWS (store_user (Sample.user 2) empty_graph)).
  right. intros [[n Hn] | [n Hn]]; simpl in Hn.
  - rewrite lookup_insert_ne in Hn by done. by rewrite lookup_empty in Hn.
  - by rewrite lookup_empty in Hn.
Defined.

(** X5. Order of the writes. Upserts of users with different ids commute,
    an upsert of a user and an upsert of a group commute, and two
    [create_relationship] commute. *)
Theorem writes_commute g :
  (∀ r1 r2, u_id r1 ≠ u_id r2 →
     store_user r1 (store_user r2 g) = store_user r2 (store_user r1 g))
  ∧ (∀ r grp, store_user r (store_group grp g) = store_group grp (store_user r g))
  ∧ (∀ a b ty a' b' ty',
       create_relationship a b ty (create_relationship a' b' ty' g)
       = create_relationship a' b' ty' (create_relationship a b ty g)).
Proof.
  split_and!.
  - intros r1 r2 Hne. apply graph_eq; [|done|done].
    rewrite !users_store_user. by apply insert_insert_ne.
  - intros r grp. by apply graph_eq.
  - intros a b ty a' b' ty'. apply graph_eq; [done | done |].
    change (rels g ∪ matched g a' b' ty' ∪ matched g a b ty
            = rels g ∪ matched g a b ty ∪ matched g a' b' ty').
    set_solver.
Qed.

(** Users 1 and 2. *)
Lemma writes_commute_witness :
  store_user (Sample.user 1) (store_user (Sample.user 2) empty_graph)
  = store_user (Sample.user 2) (store_user (Sample.user 1) empty_graph).
Proof.
  destruct (writes_commute empty_graph) as (Husers & _). by apply Husers.
Defined.

(** X6. The count of [get_total_users] under the writes: an upsert of a
    user whose id is stored leaves it as it is, an upsert of a new id adds
    one, and the other writes do not change it; the same holds of
    [get_total_groups] and the upserts of groups. *)
Theorem totals_under_writes g :
  (∀ r, has_user g (u_id r) → get_total_users (store_user r g) = get_total_users g)
  ∧ (∀ r, ¬ has_user g (u_id r) →
          get_total_users (store_user r g) = get_total_users g + 1)
  ∧ (∀ grp, has_group g (g_id grp) →
            get_total_groups (store_group grp g) = get_total_groups g)
  ∧ (∀ grp, ¬ has_group g (g_id grp) →
            get_total_groups (store_group grp g) = get_total_groups g + 1)
  ∧ (∀ grp, get_total_users (store_group grp g) = get_total_users g)
  ∧ (∀ r, get_total_groups (store_user r g) = get_total_groups g)
  ∧ (∀ a b ty, get_total_users (create_relationship a b ty g) = get_total_users g
               ∧ get_total_groups (create_relationship a b ty g) = get_total_groups g).
Proof.
  unfold get_total_users, get_total_groups, has_user, has_group. split_and!; try done.
  - intros r Hr. rewrite users_store_user. by rewrite map_size_insert_Some.
  - intros r Hr. rewrite users_store_user.
    rewrite map_size_insert_None; [lia|]. by apply eq_None_not_Some.
  - intros grp Hg. rewrite groups_store_group. by rewrite map_size_insert_Some.
  - intros grp Hg. rewrite groups_store_group.
    rewrite map_size_insert_None; [lia|]. by apply eq_None_not_Some.
Qed.

(** The empty graph holds no user; user 1 stored twice is counted once. *)
Lemma totals_under_writes_witness :
  get_total_users (store_user (Sample.user 1) (store_user (Sample.user 1) empty_graph))
  = get_total_users (store_user (Sample.user 1) empty_graph).
Proof.
  destruct (totals_under_writes (store_user (Sample.user 1) empty_graph)) as (Hsame & _).
  apply Hsame. unfold has_user. simpl. rewrite lookup_insert_eq. by eexists.
Defined.

(** ** The answer of a request *)

(** X7. [vk_api_call] returns a value only for the status 200 and a body
    without the key ['error'], and then the value under ['response']; an
    error payload wins over a response in the same body. It logs one line
    for another status or an error payload, and nothing when a body of
    status 200 has neither key. *)
Theorem vk_api_call_answers {A} (response : http_response A) :
  (∀ x, (vk_api_call response).1 = Some x ↔
        status_code response = 200 ∧ body_error (json response) = None
        ∧ body_response (json response) = Some x)
  ∧ ((vk_api_call response).2 = [] ↔
     status_code response = 200 ∧ body_error (json response) = None)
  ∧ (length (vk_api_call response).2 ≤ 1)%nat.
Proof.
  unfold vk_api_call.
  destruct (decide (status_code response = 200)) as [Hs | Hs];
    [destruct (body_error (json response)) as [msg|]|]; simpl;
    (split_and!; [intros x | | lia]); naive_solver.
Qed.

(** A body of status 200 that holds an error and a response. *)
Lemma vk_api_call_answers_witness :
  (vk_api_call (HttpResponse 200 "" (ResponseBody (Some "Too many requests") (Some 5)))).1
  ≠ Some 5.
Proof.
  intros H.
  apply (vk_api_call_answers
           (HttpResponse 200 "" (ResponseBody (Some "Too many requests") (Some 5)))) in H.
  by destruct H as (_ & H & _).
Defined.

(** ** More invariants of the loop *)

Lemma relationship_of_expansion vk P uid level r a b ty :
  CreateRelationship a b ty ∈ writes (expansion_events vk P uid level r) →
  (ty = FOLLOWS ∧ b = uid ∧ ∃ f, f ∈ new_followers vk P uid ∧ u_id f = a)
  ∨ (ty = SUBSCRIBED_TO ∧ a = uid ∧ ∃ grp, grp ∈ new_groups vk P uid ∧ g_id grp = b).
Proof.
  rewrite writes_expansion_events.
  intros [Hw | [Hw | Hw]%elem_of_app]%elem_of_cons; [done | |].
  - apply list_elem_of_bind in Hw as (f & Hin & Hf). left.
    apply elem_of_cons in Hin as [? | Hin%list_elem_of_singleton]; [done|].
    simplify_eq. eauto.
  - apply list_elem_of_bind in Hw as (grp & Hin & Hgrp). right.
    apply elem_of_cons in Hin as [? | Hin%list_elem_of_singleton]; [done|].
    simplify_eq. eauto.
Qed.

Lemma follower_relationship_written vk P uid level r f :
  f ∈ new_followers vk P uid →
  CreateRelationship (u_id f) uid FOLLOWS ∈ writes (expansion_events vk P uid level r).
Proof.
  intros Hf. rewrite writes_expansion_events. right. apply elem_of_app. left.
  apply list_elem_of_bind. exists f. split; [|done]. right. by left.
Qed.

Lemma new_followers_fresh vk P uid f : f ∈ new_followers vk P uid → u_id f ∉ P.
Proof.
  unfold new_followers. destruct (fetch_followers vk uid) as [ids|]; [|by intros ?%elem_of_nil].
  destruct (fetch_followers_details vk ids) as [info|]; [|by intros ?%elem_of_nil].
  by intros [Hf _]%list_elem_of_filter.
Qed.

(** Case analysis on the loop body of [st], with the new state rewritten. *)
Ltac loop_body vk max_depth max_nodes st :=
  destruct (iteration_cases vk max_depth max_nodes st) as
    [Hq | uid level q Hq Hskip | uid level q Hq Hnew Hlevel Hlimit
     | uid level q Hq Hnew Hlevel Hlimit Habs
     | uid level q r rest Hq Hnew Hlevel Hlimit Hinfo];
  [ rewrite (iteration_empty vk max_depth max_nodes st Hq)
  | rewrite (iteration_skip vk max_depth max_nodes st uid level q Hq Hskip)
  | rewrite (iteration_limit vk max_depth max_nodes st uid level q Hq Hnew Hlevel Hlimit)
  | rewrite (iteration_failed vk max_depth max_nodes st uid level q Hq Hnew Hlevel Hlimit Habs)
  | rewrite (iteration_expand vk max_depth max_nodes st uid level q r rest
               Hq Hnew Hlevel Hlimit Hinfo) ];
  simpl.

Section More_invariants.

Variable vk : api.
Variable max_depth max_nodes : Z.
Variable user_id current_level : Z.

Local Abbreviation reach := (reachable vk max_depth max_nodes user_id current_level).

Lemma counter_is_size st :
  reach st → Z.of_nat (size (processed st)) = node_count st.
Proof.
  induction 1 as [|st Hst IH Hfin]; [done|].
  loop_body vk max_depth max_nodes st; try done;
    rewrite size_union by set_solver; rewrite size_singleton; lia.
Qed.

Lemma levels_in_range st :
  reach st →
  (∀ u l, (u, l) ∈ queue st →
          current_level ≤ l ∧ l ≤ Z.max current_level (max_depth + 1))
  ∧ (∀ u l, (u, l) ∈ expanded (trace st) → current_level ≤ l).
Proof.
  induction 1 as [|st Hst [IHq IHe] Hfin].
  { split; [|by intros ?? ?%elem_of_nil].
    intros u l Hul%list_elem_of_singleton. simplify_eq. lia. }
  assert (∀ uid level q, queue st = (uid, level) :: q →
            (current_level ≤ level ∧ level ≤ Z.max current_level (max_depth + 1))
            ∧ ∀ u l, (u, l) ∈ q →
                     current_level ≤ l ∧ l ≤ Z.max current_level (max_depth + 1)) as Htail.
  { intros uid level q Hq. rewrite Hq in IHq. split.
    - apply (IHq uid). by left.
    - intros u l Hul. apply (IHq u). by right. }
  loop_body vk max_depth max_nodes st;
    rewrite ?expanded_app, ?expanded_expansion_events; simpl; rewrite ?app_nil_r;
    try (split; [exact (proj2 (Htail uid level q Hq)) | done]).
  - split; [by intros ?? ?%elem_of_nil | done].
  - destruct (Htail uid level q Hq) as [Hhead Hrest]. split.
    + intros u l [Hul | Hul]%elem_of_app; [by apply (Hrest u)|].
      apply list_elem_of_fmap in Hul as (f & ? & _). simplify_eq. lia.
    + intros u l [Hul | Hul%list_elem_of_singleton]%elem_of_app; [by eapply IHe|].
      simplify_eq. lia.
Qed.

Lemma relationships_from_expanded st :
  reach st →
  ∀ a b ty, CreateRelationship a b ty ∈ writes (trace st) →
  (ty = FOLLOWS ∧ b ∈ (expanded (trace st)).*1)
  ∨ (ty = SUBSCRIBED_TO ∧ a ∈ (expanded (trace st)).*1).
Proof.
  induction 1 as [|st Hst IH Hfin]; [by intros ??? ?%elem_of_nil|].
  loop_body vk max_depth max_nodes st;
    rewrite ?writes_app, ?expanded_app, ?expanded_expansion_events; simpl;
    rewrite ?app_nil_r; try done.
  intros a b ty [Hw | Hw]%elem_of_app.
  - rewrite fmap_app. destruct (IH a b ty Hw) as [[-> Hb] | [-> Ha]];
      [left | right]; (split; [done|]); apply elem_of_app; by left.
  - rewrite fmap_app.
    apply relationship_of_expansion in Hw as [(-> & -> & _) | (-> & -> & _)];
      [left | right]; (split; [done|]); apply elem_of_app; right; by left.
Qed.

Lemma discovered_from_parent st :
  reach st →
  ∀ u l, (u, l) ∈ queue st ∨ (u, l) ∈ expanded (trace st) →
  (u, l) = (user_id, current_level)
  ∨ ∃ p, CreateRelationship u p FOLLOWS ∈ writes (trace st)
         ∧ (p, l - 1) ∈ expanded (trace st).
Proof.
  induction 1 as [|st Hst IH Hfin].
  { intros u l [Hul%list_elem_of_singleton | Hul%elem_of_nil]; [by left | done]. }
  assert (∀ uid level q, queue st = (uid, level) :: q →
            ∀ u l, (u, l) = (uid, level) ∨ (u, l) ∈ q ∨ (u, l) ∈ expanded (trace st) →
            (u, l) = (user_id, current_level)
            ∨ ∃ p, CreateRelationship u p FOLLOWS ∈ writes (trace st)
                   ∧ (p, l - 1) ∈ expanded (trace st)) as Hold.
  { intros uid level q Hq u l Hul. apply IH. rewrite Hq.
    destruct Hul as [-> | [Hul | Hul]]; [left; by left | left; by right | by right]. }
  loop_body vk max_depth max_nodes st;
    rewrite ?writes_app, ?expanded_app, ?expanded_expansion_events; simpl;
    rewrite ?app_nil_r.
  - intros u l [Hul%elem_of_nil | Hul]; [done|]. apply IH. by right.
  - intros u l Hul. apply (Hold uid level q Hq). tauto.
  - intros u l Hul. apply (Hold uid level q Hq). tauto.
  - intros u l Hul. apply (Hold uid level q Hq). tauto.
  - assert (∀ u l,
              ((u, l) = (user_id, current_level)
               ∨ ∃ p, CreateRelationship u p FOLLOWS ∈ writes (trace st)
                      ∧ (p, l - 1) ∈ expanded (trace st)) →
              (u, l) = (user_id, current_level)
              ∨ ∃ p, CreateRelationship u p FOLLOWS
                       ∈ writes (trace st)
                         ++ writes (expansion_events vk ({[uid]} ∪ processed st) uid level r)
                     ∧ (p, l - 1) ∈ expanded (trace st) ++ [(uid, level)]) as Hmono.
    { intros u l [? | (p & Hw & Hp)]; [by left | right].
      exists p. split; apply elem_of_app; by left. }
    intros u l [[Hul | Hul]%elem_of_app | [Hul | Hul%list_elem_of_singleton]%elem_of_app].
    + apply Hmono, (Hold uid level q Hq). tauto.
    + apply list_elem_of_fmap in Hul as (f & ? & Hf). simplify_eq. right.
      exists uid. split.
      * apply elem_of_app. right. by apply follower_relationship_written.
      * apply elem_of_app. right. replace (level + 1 - 1) with level by lia. by left.
    + apply Hmono, (Hold uid level q Hq). tauto.
    + apply Hmono, (Hold uid level q Hq). left. by simplify_eq.
Qed.

Lemma follows_one_way st :
  reach st →
  (∀ a b, CreateRelationship a b FOLLOWS ∈ writes (trace st) → b ∈ processed st)
  ∧ (∀ a b, CreateRelationship a b FOLLOWS ∈ writes (trace st) →
            CreateRelationship b a FOLLOWS ∉ writes (trace st)).
Proof.
  induction 1 as [|st Hst [IHp IHo] Hfin].
  { split; by intros ?? ?%elem_of_nil. }
  loop_body vk max_depth max_nodes st; rewrite ?writes_app; simpl; rewrite ?app_nil_r;
    try done; try (split; [|done]; intros a b Hw; apply elem_of_union_r; by eapply IHp).
  set (P := {[uid]} ∪ processed st).
  assert (∀ a b,
    CreateRelationship a b FOLLOWS ∈ writes (expansion_events vk P uid level r) →
    b = uid ∧ a ∉ P) as Hnew'.
  { intros a b [(_ & -> & f & Hf & <-) | (? & _)]%relationship_of_expansion; [|done].
    split; [done|]. by eapply new_followers_fresh. }
  split.
  - intros a b [Hw | Hw]%elem_of_app.
    + apply elem_of_union_r. by eapply IHp.
    + apply Hnew' in Hw as [-> _]. apply elem_of_union_l. by apply elem_of_singleton.
  - intros a b [Hw | Hw]%elem_of_app [Hw' | Hw']%elem_of_app.
    + by eapply IHo.
    + apply Hnew' in Hw' as [-> Ha]. apply Ha, elem_of_union_r. by eapply IHp.
    + apply Hnew' in Hw as [-> Ha]. apply Ha, elem_of_union_r. by eapply IHp.
    + apply Hnew' in Hw as [-> Ha]. apply Hnew' in Hw' as [-> _].
      apply Ha, elem_of_union_l. by apply elem_of_singleton.
Qed.

End More_invariants.

(** ** Where the relationships of a graph come from *)

Lemma rels_origin ws g e :
  e ∈ rels (run_writes ws g) →
  e ∈ rels g
  ∨ ∃ ws1 a b ty ws2,
      ws = ws1 ++ CreateRelationship a b ty :: ws2
      ∧ e ∈ matched (run_writes ws1 g) a b ty.
Proof.
  induction ws as [|w ws IH] using rev_ind; [by left|].
  rewrite run_writes_app. simpl. intros He.
  assert (e ∈ rels (run_writes ws g)
          ∨ ∃ a b ty, w = CreateRelationship a b ty
                      ∧ e ∈ matched (run_writes ws g) a b ty) as [Hold | Hnew].
  { destruct w as [r|grp|a b ty]; simpl in He; [by left | by left |].
    change (e ∈ rels (run_writes ws g) ∪ matched (run_writes ws g) a b ty) in He.
    apply elem_of_union in He as [He | He]; [by left | right; eauto]. }
  - destruct (IH Hold) as [? | (ws1 & a & b & ty & ws2 & -> & Hm)]; [by left | right].
    exists ws1, a, b, ty, (ws2 ++ [w]). split; [|done].
    by rewrite <- app_assoc.
  - destruct Hnew as (a & b & ty & -> & Hm). right.
    by exists ws, a, b, ty, [].
Qed.

Lemma rels_written ws n1 ty n2 :
  (n1, ty, n2) ∈ rels (run_writes ws empty_graph) →
  CreateRelationship n1.2 n2.2 ty ∈ ws.
Proof.
  intros [He | (ws1 & a & b & ty' & ws2 & -> & Hm)]%rels_origin.
  - simpl in He. by apply not_elem_of_empty in He.
  - apply elem_of_matched_inv in Hm as (a' & b' & ? & Ha & Hb). simplify_eq.
    rewrite (nodes_with_id_id _ _ _ Ha), (nodes_with_id_id _ _ _ Hb).
    apply elem_of_app. right. by left.
Qed.

Lemma omap_none {A B} (f : A → option B) (l : list A) :
  (∀ x, x ∈ l → f x = None) → omap f l = [].
Proof.
  induction l as [|x l IH]; intros Hl; [done|].
  simpl. rewrite (Hl x) by left. apply IH. intros y Hy. apply Hl. by right.
Qed.

Lemma elem_of_mutual_followers g row :
  row ∈ get_mutual_followers g ↔
  ∃ u v user1 user2,
    ((User, u), FOLLOWS, (User, v)) ∈ rels g ∧ ((User, v), FOLLOWS, (User, u)) ∈ rels g
    ∧ users g !! u = Some user1 ∧ users g !! v = Some user2
    ∧ row = (name user1, name user2).
Proof.
  unfold get_mutual_followers. rewrite list_elem_of_omap. split.
  - intros (e & He%elem_of_elements & Hrow).
    destruct e as [[[[] u] []] [[] v]]; simpl in Hrow; try done.
    case_decide as Hback; [|done].
    destruct (users g !! u) as [user1|] eqn:Hu; [|done].
    destruct (users g !! v) as [user2|] eqn:Hv; [|done].
    simpl in Hrow. simplify_eq. by exists u, v, user1, user2.
  - intros (u & v & user1 & user2 & Huv & Hvu & Hu & Hv & ->).
    exists ((User, u), FOLLOWS, (User, v)). split; [by apply elem_of_elements|].
    simpl. rewrite decide_True by done. by rewrite Hu, Hv.
Qed.

(** ** The relationships of a crawl find their nodes *)

Section Detail_of_requested.

Variable vk : api.
Variable max_depth max_nodes : Z.
Variable user_id current_level : Z.

Hypothesis detail_of_requested :
  ∀ u r rest, fetch_user_info vk (UserId u) = Some (r :: rest) → u_id r = u.

Lemma crawl_linked st :
  reachable vk max_depth max_nodes user_id current_level st →
  ∀ g, linked g (writes (trace st)).
Proof.
  induction 1 as [|st Hst IH Hfin]; [done|].
  loop_body vk max_depth max_nodes st; rewrite ?writes_app; simpl; rewrite ?app_nil_r;
    try done.
  intros g. apply linked_app. split; [done|].
  change (linked (run_writes (writes (trace st)) g)
            (writes (expansion_events vk ({[uid]} ∪ processed st) uid level r))).
  rewrite writes_expansion_events. simpl. split; [done|].
  assert (has_id (store_user r (run_writes (writes (trace st)) g)) uid) as Hid.
  { rewrite <- (detail_of_requested uid r rest Hinfo). apply has_id_store_user. }
  apply linked_app. split; [by apply linked_follower_writes|].
  by apply linked_group_writes, has_id_run_writes.
Qed.

End Detail_of_requested.

(** ** The labels at the ends of the relationships of a crawl *)

Section Labels.

Variable vk : api.
Variable max_depth max_nodes : Z.
Variable user_id current_level : Z.
Variable U : Z → Prop.

Hypothesis detail_of_requested :
  ∀ u r rest, fetch_user_info vk (UserId u) = Some (r :: rest) → u_id r = u.
Hypothesis followers_are_users :
  ∀ ids info f, fetch_followers_details vk ids = Some info → f ∈ info → U (u_id f).
Hypothesis groups_are_not_users :
  ∀ ids info grp, fetch_group_details vk ids = Some info → grp ∈ info → ¬ U (g_id grp).
Hypothesis seed_is_user : U user_id.

Lemma relationship_ids st :
  reachable vk max_depth max_nodes user_id current_level st →
  ∀ a b ty, CreateRelationship a b ty ∈ writes (trace st) →
  (ty = FOLLOWS ∧ U a ∧ U b) ∨ (ty = SUBSCRIBED_TO ∧ U a ∧ ¬ U b).
Proof.
  induction 1 as [|st Hst IH Hfin]; [by intros ??? ?%elem_of_nil|].
  pose proof (crawl_writes vk max_depth max_nodes user_id current_level U
                detail_of_requested followers_are_users groups_are_not_users
                seed_is_user st Hst) as (Hqueue & _).
  loop_body vk max_depth max_nodes st; rewrite ?writes_app; simpl; rewrite ?app_nil_r;
    try done.
  assert (U uid) as Huid by (apply (Hqueue uid level); rewrite Hq; by left).
  intros a b ty [Hw | Hw]%elem_of_app; [by apply IH|].
  apply relationship_of_expansion in Hw
    as [(-> & -> & f & Hf & <-) | (-> & -> & grp & Hgrp & <-)]; [left | right].
  - split_and!; [done | | done].
    by eapply (new_followers_users vk U followers_are_users).
  - split_and!; [done | done |].
    by eapply (new_groups_not_users vk U groups_are_not_users).
Qed.

End Labels.

Lemma separated_node (U : Z → Prop) g i n :
  separated U g → n ∈ nodes_with_id g i →
  (U i → n = (User, i)) ∧ (¬ U i → n = (Group, i)).
Proof.
  intros [Hu Hg]. unfold nodes_with_id.
  intros [Hn | Hn]%elem_of_app; case_decide as Hi; try (by apply elem_of_nil in Hn);
    apply list_elem_of_singleton in Hn as ->; split; intros HU; try done.
  - exfalso. by apply HU, Hu.
  - exfalso. by apply (Hg i).
Qed.

(** ** Further properties of the traversal *)

Lemma loop_more_fuel vk max_depth max_nodes fuel fuel' st st' :
  (fuel ≤ fuel')%nat →
  loop vk max_depth max_nodes fuel st = Some st' →
  loop vk max_depth max_nodes fuel' st = Some st'.
Proof.
  revert fuel' st. induction fuel as [|fuel IH]; intros fuel' st Hle; simpl.
  - destruct (finished st) eqn:Hfin; [|done]. intros ?; simplify_eq.
    by apply loop_finished.
  - destruct (finished st) eqn:Hfin.
    + intros ?; simplify_eq. by apply loop_finished.
    + destruct fuel' as [|fuel']; [lia|]. simpl. rewrite Hfin. apply IH. lia.
Qed.

(** X8. [process_network] ends, whatever the API answers and whatever the
    limits are: some number of iterations leaves the loop, and every larger
    number gives the same final state. *)
Theorem traversal_ends vk max_depth max_nodes user_id current_level :
  ∃ fuel st,
    finished st = true
    ∧ ∀ fuel', (fuel ≤ fuel')%nat →
               process_network vk max_depth max_nodes fuel' user_id current_level = Some st.
Proof.
  destruct (loop_terminates vk max_depth max_nodes (initial user_id current_level))
    as (fuel & st & Hst).
  exists fuel, st. split; [by eapply loop_some_finished|].
  intros fuel' Hle. by eapply loop_more_fuel.
Qed.

(** The tree, whatever the limits. *)
Lemma traversal_ends_witness :
  ∃ fuel st, process_network Sample.tree 2 200 fuel 1 0 = Some st ∧ finished st = true.
Proof.
  destruct (traversal_ends Sample.tree 2 200 1 0) as (fuel & st & Hfin & Hrun).
  exists fuel, st. split; [by apply Hrun | done].
Defined.



(** X10. The counter counts the marked ids: in every state of a run,
    [node_count] is the number of elements of [processed]. *)
Theorem counter_counts_processed vk max_depth max_nodes user_id current_level st :
  reachable vk max_depth max_nodes user_id current_level st →
  Z.of_nat (size (processed st)) = node_count st.
Proof. apply counter_is_size. Qed.

(** The tree after three iterations. *)
Lemma counter_counts_processed_witness :
  Z.of_nat (size (processed (run Sample.tree 2 200 3 (initial 1 0)))) = 3.
Proof.
  rewrite (counter_counts_processed Sample.tree 2 200 1 0); [reflexivity|].
  apply reachable_after.
Defined.

(** X11. The levels in the queue: a waiting item is never above the level
    [max_depth + 1] (or the level of the seed, when that is higher) and
    never below the level of the seed. *)
Theorem queue_levels vk max_depth max_nodes user_id current_level st u l :
  reachable vk max_depth max_nodes user_id current_level st →
  (u, l) ∈ queue st →
  current_level ≤ l ∧ l ≤ Z.max current_level (max_depth + 1).
Proof. intros Hst. by apply (proj1 (levels_in_range _ _ _ _ _ st Hst)). Qed.

(** The tree with [max_depth = 1]: the followers of user 2 wait at level 2. *)
Lemma queue_levels_witness :
  (4, 2) ∈ queue (run Sample.tree 1 200 2 (initial 1 0))
  ∧ 0 ≤ 2 ∧ 2 ≤ Z.max 0 (1 + 1).
Proof.
  assert ((4, 2) ∈ queue (run Sample.tree 1 200 2 (initial 1 0))) as Hin.
  { vm_compute. repeat constructor. }
  split; [done|].
  apply (queue_levels Sample.tree 1 200 1 0 (run Sample.tree 1 200 2 (initial 1 0)) 4 2);
    [apply reachable_after | done].
Defined.

(** X12. Relationships start at expanded nodes only. In every state of a
    run, a FOLLOWS relationship was created towards a node that was
    expanded, and a SUBSCRIBED_TO relationship from a node that was
    expanded, each at a level of at most [max_depth]: a node that is only
    stored as a follower has no follower and no subscription of its own in
    the writes. *)
Theorem relationships_of_expanded vk max_depth max_nodes user_id current_level st a b ty :
  reachable vk max_depth max_nodes user_id current_level st →
  CreateRelationship a b ty ∈ writes (trace st) →
  (ty = FOLLOWS ∧ ∃ l, (b, l) ∈ expanded (trace st) ∧ l ≤ max_depth)
  ∨ (ty = SUBSCRIBED_TO ∧ ∃ l, (a, l) ∈ expanded (trace st) ∧ l ≤ max_depth).
Proof.
  intros Hst Hw.
  destruct (relationships_from_expanded _ _ _ _ _ st Hst a b ty Hw)
    as [[-> Hin] | [-> Hin]]; [left | right]; (split; [done|]);
    apply list_elem_of_fmap in Hin as ([u l] & -> & Hin); exists l;
    (split; [done|]); by eapply expanded_within_depth.
Qed.

(** The scenario: the subscription of user 3 to the page 100. *)
Lemma relationships_of_expanded_witness :
  ∃ l, (3, l) ∈ expanded (trace (run Sample.scenario 1 10 9 (initial 1 0))) ∧ l ≤ 1.
Proof.
  destruct (relationships_of_expanded Sample.scenario 1 10 1 0
              (run Sample.scenario 1 10 9 (initial 1 0)) 3 100 SUBSCRIBED_TO)
    as [[? _] | [_ H]]; [apply reachable_after | | done | done].
  vm_compute. repeat constructor.
Defined.

(** X13. The levels are distances along FOLLOWS relationships: every item
    that waits or was expanded at level [l], other than the seed, got a
    FOLLOWS relationship to a node that was expanded at level [l - 1]. *)
Theorem level_is_one_more_than_parent vk max_depth max_nodes user_id current_level st u l :
  reachable vk max_depth max_nodes user_id current_level st →
  (u, l) ∈ queue st ∨ (u, l) ∈ expanded (trace st) →
  (u, l) = (user_id, current_level)
  ∨ ∃ p, CreateRelationship u p FOLLOWS ∈ writes (trace st)
         ∧ (p, l - 1) ∈ expanded (trace st).
Proof. intros Hst. by apply (discovered_from_parent _ _ _ _ _ st Hst). Qed.

(** The tree: user 4, expanded at level 2, follows user 2, expanded at
    level 1. *)
Lemma level_is_one_more_than_parent_witness :
  ∃ p, CreateRelationship 4 p FOLLOWS
         ∈ writes (trace (run Sample.tree 2 200 9 (initial 1 0)))
       ∧ (p, 2 - 1) ∈ expanded (trace (run Sample.tree 2 200 9 (initial 1 0))).
Proof.
  destruct (level_is_one_more_than_parent Sample.tree 2 200 1 0
              (run Sample.tree 2 200 9 (initial 1 0)) 4 2) as [? | H];
    [apply reachable_after | | done | done].
  right. vm_compute. repeat constructor.
Defined.

(** ** Further properties of a crawl and of the queries *)

(** X14. One crawl gives no mutual followers. A follower gets its FOLLOWS
    relationship only while it is not marked, and the node it follows is
    marked from then on: the writes of a run never hold FOLLOWS
    relationships in both directions between two ids, nor from an id to
    itself. So in a graph filled by one run from the empty graph,
    [get_mutual_followers] has no row, whatever the API answers. *)
Theorem no_mutual_followers_after_crawl vk max_depth max_nodes user_id current_level st :
  reachable vk max_depth max_nodes user_id current_level st →
  (∀ a b, CreateRelationship a b FOLLOWS ∈ writes (trace st) →
          CreateRelationship b a FOLLOWS ∉ writes (trace st))
  ∧ get_mutual_followers (replay (trace st) empty_graph) = [].
Proof.
  intros Hst.
  destruct (follows_one_way _ _ _ _ _ st Hst) as [_ Hone]. split; [done|].
  apply omap_none. intros e He%elem_of_elements.
  destruct e as [[[[] u] []] [[] v]]; simpl; try done.
  case_decide as Hback; [|done]. exfalso.
  apply rels_written in He. apply rels_written in Hback. simpl in He, Hback.
  by apply (Hone u v).
Qed.

(** Users 1 and 2 follow each other: only the relationship from 2 to 1 is
    written. *)
Lemma no_mutual_followers_after_crawl_witness :
  let vk := Sample.make [1; 2] (λ i, if decide (i = 1) then [2] else [1]) (λ _, []) in
  writes (trace (run vk 2 200 9 (initial 1 0)))
  = [StoreUser (Sample.user 1); StoreUser (Sample.user 2); CreateRelationship 2 1 FOLLOWS;
     StoreUser (Sample.user 2)]
  ∧ get_mutual_followers (replay (trace (run vk 2 200 9 (initial 1 0))) empty_graph) = [].
Proof.
  intros vk. split; [reflexivity|].
  apply (no_mutual_followers_after_crawl vk 2 200 1 0), reachable_after.
Defined.

(** X15. [get_mutual_followers] reports every pair in both orders: when
    the row [(x, y)] is in the result, so is the row [(y, x)]. *)
Theorem mutual_followers_both_orders g x y :
  (x, y) ∈ get_mutual_followers g → (y, x) ∈ get_mutual_followers g.
Proof.
  rewrite !elem_of_mutual_followers.
  intros (u & v & user1 & user2 & Huv & Hvu & Hu & Hv & ?). simplify_eq.
  by exists v, u, user2, user1.
Qed.

(** Two users that were linked in both directions. *)
Lemma mutual_followers_both_orders_witness :
  let ann := UserData 1 (Some "Ann") (Some "A") None None None None in
  let bob := UserData 2 (Some "Bob") (Some "B") None None None None in
  let g := run_writes [StoreUser ann; StoreUser bob;
                       CreateRelationship 1 2 FOLLOWS; CreateRelationship 2 1 FOLLOWS]
             empty_graph in
  ("Bob B", "Ann A") ∈ get_mutual_followers g.
Proof.
  intros ann bob g. apply mutual_followers_both_orders. by_evaluation.
Defined.

(** X16. No relationship of a crawl is lost. When the record answered for
    an id carries that id, every [create_relationship] of a run finds a
    node for each of its two ids at the moment it runs, whatever the graph
    held before the run. *)
Theorem relationships_find_nodes vk max_depth max_nodes user_id current_level st g :
  (∀ u r rest, fetch_user_info vk (UserId u) = Some (r :: rest) → u_id r = u) →
  reachable vk max_depth max_nodes user_id current_level st →
  linked g (writes (trace st)).
Proof. intros Hdetail Hst. by apply (crawl_linked vk max_depth max_nodes user_id current_level). Qed.

(** The scenario of the specification. *)
Lemma relationships_find_nodes_witness :
  linked empty_graph (writes (trace (run Sample.scenario 1 10 9 (initial 1 0)))).
Proof.
  apply (relationships_find_nodes Sample.scenario 1 10 1 0); [|apply reachable_after].
  intros u r rest. simpl. destruct (decide (u ∈ [1; 2; 3])); [|done].
  intros ?; by simplify_eq.
Defined.

(** X17. The labels at the ends of the relationships. When no id is
    shared by a user and a group and the record answered for an id carries
    that id, every relationship of a graph filled by one run from the empty
    graph starts at a user node; a FOLLOWS relationship ends at a user node
    and a SUBSCRIBED_TO relationship at a group node. *)
Theorem relationship_labels vk max_depth max_nodes user_id current_level
    (U : Z → Prop) st n1 ty n2 :
  (∀ u r rest, fetch_user_info vk (UserId u) = Some (r :: rest) → u_id r = u) →
  (∀ ids info f, fetch_followers_details vk ids = Some info → f ∈ info → U (u_id f)) →
  (∀ ids info grp, fetch_group_details vk ids = Some info → grp ∈ info → ¬ U (g_id grp)) →
  U user_id →
  reachable vk max_depth max_nodes user_id current_level st →
  (n1, ty, n2) ∈ rels (replay (trace st) empty_graph) →
  n1.1 = User ∧ n2.1 = match ty with FOLLOWS => User | SUBSCRIBED_TO => Group end.
Proof.
  intros Hdetail Hfollowers Hgroups Hseed Hst He.
  destruct (crawl_writes vk max_depth max_nodes user_id current_level U
              Hdetail Hfollowers Hgroups Hseed st Hst) as (_ & [Hwu Hwg] & _).
  apply rels_origin in He as [He | (ws1 & a & b & ty' & ws2 & Hws & Hm)].
  { simpl in He. by apply not_elem_of_empty in He. }
  assert (separated U (run_writes ws1 empty_graph)) as Hsep.
  { apply separated_run_writes.
    - split; intros i [x Hx]; simpl in Hx; by rewrite lookup_empty in Hx.
    - split; intros x Hx; [apply Hwu | apply Hwg]; rewrite Hws;
        apply elem_of_app; by left. }
  assert (CreateRelationship a b ty' ∈ writes (trace st)) as Hw.
  { rewrite Hws. apply elem_of_app. right. by left. }
  apply elem_of_matched_inv in Hm as (a' & b' & ? & Ha & Hb). simplify_eq.
  destruct (separated_node U _ _ _ Hsep Ha) as [Hau _].
  destruct (separated_node U _ _ _ Hsep Hb) as [Hbu Hbg].
  destruct (relationship_ids vk max_depth max_nodes user_id current_level U
              Hdetail Hfollowers Hgroups Hseed st Hst a b ty' Hw)
    as [(-> & HUa & HUb) | (-> & HUa & HUb)].
  - by rewrite (Hau HUa), (Hbu HUb).
  - by rewrite (Hau HUa), (Hbg HUb).
Qed.

(** The scenario of the specification: the subscription of user 3. *)
Lemma relationship_labels_witness :
  ((User, 3), SUBSCRIBED_TO, (Group, 100))
    ∈ rels (replay (trace (run Sample.scenario 1 10 9 (initial 1 0))) empty_graph)
  ∧ (User, 3).1 = User ∧ (Group, 100).1 = Group.
Proof.
  assert (((User, 3), SUBSCRIBED_TO, (Group, 100))
            ∈ rels (replay (trace (run Sample.scenario 1 10 9 (initial 1 0))) empty_graph))
    as He by by_evaluation.
  split; [done|].
  apply (relationship_labels Sample.scenario 1 10 1 0 (λ i, i < 100)
           (run Sample.scenario 1 10 9 (initial 1 0)) (User, 3) SUBSCRIBED_TO (Group, 100));
    [| | | | |done].
  - intros u r rest. simpl. destruct (decide (u ∈ [1; 2; 3])); [|done].
    intros ?; by simplify_eq.
  - intros ids info f. simpl. unfold Sample.users_of.
    destruct (filter (λ i, i < 100) ids) as [|i l] eqn:Hl; [done|].
    intros Hinfo Hf. injection Hinfo as <-.
    change (f ∈ Sample.user <$> i :: l) in Hf.
    apply list_elem_of_fmap in Hf as (j & -> & Hj). simpl.
    rewrite <- Hl in Hj. by apply list_elem_of_filter in Hj as [Hj _].
  - intros ids info grp Hinfo Hgrp. simpl in Hinfo. unfold Sample.groups_of in Hinfo.
    simplify_eq. apply list_elem_of_fmap in Hgrp as (j & -> & Hj). simpl.
    apply list_elem_of_filter in Hj as [Hj _]. lia.
  - lia.
  - apply reachable_after.
Defined.


